(** * The Dirichlet node of BayesPy: moments, natural parameters, gradients

    A shallow embedding of [bayespy/inference/vmp/nodes/dirichlet.py].

    Conventions of the embedding.
    - A NumPy array is a shape together with its entries in row-major
      (C) order, as NumPy stores a contiguous array.
    - An entry is a real number: float64 entries are idealised, so there is
      no rounding, no NaN and no infinity in the model. The one place
      where rounding decides what a function does is the test that
      probabilities sum to one; there the sum is the sum as NumPy
      computes it, a parameter of the development.
    - The special functions of [scipy.special] and [np.log] are not code of
      this repository; they are parameters of the development.
    - A Python exception is a value of [exn]; a function that may raise
      returns a [result].
    - Where a property is about object identity, the functions are given
      a second time on a store of array objects, and shown to compute the
      same values.

    Embedded: [DirichletPriorMoments], [DirichletMoments] and
    [DirichletDistribution], except [random], which only forwards to the
    sampler of [bayespy.utils.random]. The node class [Dirichlet] is glue
    for the node framework and is not embedded. *)

From Stdlib Require Import Reals Lra List Arith Lia Bool String PeanoNat.
Import ListNotations.
Open Scope R_scope.

(** ** Exceptions and results *)

Inductive exn : Type :=
| ValueError (msg : string)
| IndexError
| NotImplementedError.

Inductive result (A : Type) : Type :=
| Ok (a : A)
| Raise (e : exn).
Arguments Ok {A} a.
Arguments Raise {A} e.

Definition bind {A B} (r : result A) (k : A -> result B) : result B :=
  match r with
  | Ok a => k a
  | Raise e => Raise e
  end.

Notation "x <- r ;; k" := (bind r (fun x => k))
  (at level 61, r at next level, right associativity).

(** The invalid-argument kind of the specification is Python's
    [ValueError], whatever its message. *)
Definition invalid_argument {A} (r : result A) : Prop :=
  exists msg, r = Raise (ValueError msg).

Definition returns {A} (r : result A) : Prop := exists a, r = Ok a.

(** ** Comparisons of entries *)

Definition Rltb (x y : R) : bool := if Rlt_dec x y then true else false.
Definition Rleb (x y : R) : bool := if Rle_dec x y then true else false.

(** ** Arrays *)

Record ndarray : Type := mk_array { shape : list nat; data : list R }.

Definition size_of (s : list nat) : nat := fold_right Nat.mul 1%nat s.

(** An array is well formed when it has as many entries as its shape says. *)
Definition wf (a : ndarray) : Prop :=
  List.length (data a) = size_of (shape a).

Definition ndim (a : ndarray) : nat := List.length (shape a).

(** [a.flat[i]] *)
Definition get (a : ndarray) (i : nat) : R := nth i (data a) 0.

(** Length of the trailing axis; a 0-dimensional array counts as one row of
    one entry, which is how NumPy reduces it along [axis=-1]. *)
Definition row_len (a : ndarray) : nat := last (shape a) 1%nat.

(** Shape of the leading (batch) axes, and their number of cells. *)
Definition batch_shape (a : ndarray) : list nat := removelast (shape a).
Definition nrows (a : ndarray) : nat := size_of (batch_shape a).

Definition scalar (x : R) : ndarray := mk_array [] [x].
Definition vector (xs : list R) : ndarray := mk_array [List.length xs] xs.

(** Unary ufuncs: [special.gammaln(a)], [np.log(a)], ... *)
Definition map_array (f : R -> R) (a : ndarray) : ndarray :=
  mk_array (shape a) (map f (data a)).

(** [np.any(a < c)], [np.any(a > c)], [np.any(a <= c)] *)
Definition any_lt (a : ndarray) (c : R) : bool :=
  existsb (fun x => Rltb x c) (data a).
Definition any_gt (a : ndarray) (c : R) : bool :=
  existsb (fun x => Rltb c x) (data a).
Definition any_le (a : ndarray) (c : R) : bool :=
  existsb (fun x => Rleb x c) (data a).

(** *** Reductions along the trailing axis *)

Definition Rsum (xs : list R) : R := fold_right Rplus 0 xs.

(** The [b]-th row of the array along its trailing axis. *)
Definition row (a : ndarray) (b : nat) : list R :=
  firstn (row_len a) (skipn (b * row_len a) (data a)).

Definition row_sums (a : ndarray) : list R :=
  map (fun b => Rsum (row a b)) (seq 0 (nrows a)).

(** [np.sum(a, axis=-1)] *)
Definition sum_last (a : ndarray) : ndarray :=
  mk_array (batch_shape a) (row_sums a).

(** [np.sum(a, axis=-1, keepdims=True)]: the reduced axis stays, with
    length one; a 0-dimensional array stays 0-dimensional. *)
Definition keep_shape (s : list nat) : list nat :=
  match s with
  | [] => []
  | _ => removelast s ++ [1%nat]
  end.

Definition sum_last_keepdims (a : ndarray) : ndarray :=
  mk_array (keep_shape (shape a)) (row_sums a).

(** *** Sums that decide a branch

    Above, a sum is the exact sum of the entries. Where a sum decides
    whether a function raises, that is not enough: the function tests the
    sum that NumPy computed in float64, which can lie on the other side
    of a threshold than the exact sum. In the functions that test a sum,
    [np.sum] is therefore the sum as NumPy computes it: [fsum] stands for
    NumPy's float64 sum of a non-empty row and is a parameter, like the
    special functions; the reduction of an empty row is 0. *)

Definition fl_row_sum (fsum : list R -> R) (xs : list R) : R :=
  match xs with
  | [] => 0
  | _ => fsum xs
  end.

Definition fl_row_sums (fsum : list R -> R) (a : ndarray) : list R :=
  map (fun b => fl_row_sum fsum (row a b)) (seq 0 (nrows a)).

(** [np.sum(a, axis=-1)] and [np.sum(a, axis=-1, keepdims=True)], as
    computed *)
Definition fl_sum_last (fsum : list R -> R) (a : ndarray) : ndarray :=
  mk_array (batch_shape a) (fl_row_sums fsum a).

Definition fl_sum_last_keepdims (fsum : list R -> R) (a : ndarray)
  : ndarray :=
  mk_array (keep_shape (shape a)) (fl_row_sums fsum a).

(** *** Broadcasting

    Shapes are aligned on their trailing axes; two lengths are compatible
    when they are equal or one of them is 1. The functions below work on
    reversed shapes, trailing axis first. *)

Fixpoint broadcast_rev (r1 r2 : list nat) : option (list nat) :=
  match r1, r2 with
  | [], r => Some r
  | r, [] => Some r
  | d1 :: t1, d2 :: t2 =>
      match broadcast_rev t1 t2 with
      | None => None
      | Some t =>
          if Nat.eqb d1 d2 then Some (d1 :: t)
          else if Nat.eqb d1 1 then Some (d2 :: t)
          else if Nat.eqb d2 1 then Some (d1 :: t)
          else None
      end
  end.

Definition broadcast_shapes (s1 s2 : list nat) : option (list nat) :=
  option_map (@rev nat) (broadcast_rev (rev s1) (rev s2)).

(** Flat index, in an operand of reversed shape [rs], of the entry that is
    broadcast to flat index [i] of the result of reversed shape [rS];
    [stride] is the distance in the operand between two neighbours on the
    current axis. *)
Fixpoint source_index (rs rS : list nat) (i stride : nat) : nat :=
  match rs, rS with
  | d :: t, n :: T =>
      ((if Nat.eqb d 1 then 0 else (i mod n) * stride)
       + source_index t T (i / n) (stride * d))%nat
  | _, _ => 0%nat
  end.

Definition broadcast_get (a : ndarray) (out : list nat) (i : nat) : R :=
  get a (source_index (rev (shape a)) (rev out) i 1).

(** A binary ufunc [f(a, b)] with broadcasting; NumPy raises [ValueError]
    when the shapes are not compatible. *)
Definition binop (f : R -> R -> R) (a b : ndarray) : result ndarray :=
  match broadcast_shapes (shape a) (shape b) with
  | None =>
      Raise (ValueError "operands could not be broadcast together")
  | Some out =>
      Ok (mk_array out
            (map (fun i => f (broadcast_get a out i) (broadcast_get b out i))
                 (seq 0 (size_of out))))
  end.

(** [np.allclose(a, b)] for a scalar [b], with NumPy's default tolerances:
    every entry satisfies [|x - b| <= atol + rtol * |b|]. For [b = 1] and
    a float64 [x] the comparison over the reals decides as the float64
    comparison of NumPy does: [x - 1] is exact for [x] between 1/2 and 2,
    and no float64 [x] has [|x - 1|] between the float64 value of
    [1e-8 + 1e-5] and 1.001e-5. *)
Definition rtol : R := 1 / 100000.
Definition atol : R := 1 / 100000000.

Definition isclose (x b : R) : bool :=
  Rleb (Rabs (x - b)) (atol + rtol * Rabs b).

Definition allclose (a : ndarray) (b : R) : bool :=
  forallb (fun x => isclose x b) (data a).

(** [np.asanyarray(phi)] for a Python list of arrays: the arrays are
    stacked along a new leading axis; arrays of different shapes cannot be
    stacked. *)
Definition same_shapes (s : list nat) (l : list ndarray) : bool :=
  forallb (fun a => if list_eq_dec Nat.eq_dec (shape a) s then true else false) l.

Definition asanyarray_list (l : list ndarray) : result ndarray :=
  match l with
  | [] => Ok (mk_array [0%nat] [])
  | a :: t =>
      if same_shapes (shape a) t
      then Ok (mk_array (List.length l :: shape a) (List.concat (map data l)))
      else Raise (ValueError "inhomogeneous shape")
  end.

(** [l[i]] on a Python list *)
Definition item {A} (l : list A) (i : nat) : result A :=
  match nth_error l i with
  | Some x => Ok x
  | None => Raise IndexError
  end.

(** [np.shape(a)[-1]] *)
Definition last_dim (a : ndarray) : result nat :=
  match rev (shape a) with
  | k :: _ => Ok k
  | [] => Raise IndexError
  end.

(** ** class DirichletPriorMoments *)

Module DirichletPriorMoments.

(** The descriptor built by [__init__]: the number of categories, and the
    shapes of the two statistics, [((categories,), ())]. *)
Record t : Type := init { categories : nat }.

Definition dims (m : t) : list (list nat) := [[categories m]; []].

Section Formulas.
Variable gammaln : R -> R.

Definition compute_fixed_moments (alpha : ndarray) : result (list ndarray) :=
  if (ndim alpha <? 1)%nat then
    Raise (ValueError "The prior sample sizes must be a vector")
  else if any_lt alpha 0 then
    Raise (ValueError "The prior sample sizes must be non-negative")
  else
    let gammaln_sum := map_array gammaln (sum_last alpha) in
    let sum_gammaln := sum_last (map_array gammaln alpha) in
    z <- binop Rminus gammaln_sum sum_gammaln ;;
    Ok [alpha; z].
End Formulas.

Definition from_values (alpha : ndarray) : result t :=
  if (ndim alpha <? 1)%nat then
    Raise (ValueError "The array must be at least 1-dimensional array.")
  else
    categories <- last_dim alpha ;;
    Ok (init categories).

End DirichletPriorMoments.

(** ** class DirichletMoments *)

Module DirichletMoments.

Record t : Type := init { categories : nat }.

Definition dims (m : t) : list (list nat) := [[categories m]].

Section Formulas.
Variable log : R -> R.
Variable fsum : list R -> R.

(** The sums of this function are the sums as NumPy computes them: the
    one of line 83 decides whether the function raises. *)
Definition compute_fixed_moments (p : ndarray) : result (list ndarray) :=
  if (ndim p <? 1)%nat then
    Raise (ValueError "Probabilities must be given as a vector")
  else if any_lt p 0 || any_gt p 1 then
    Raise (ValueError "Probabilities must be in range [0,1]")
  else if negb (allclose (fl_sum_last fsum p) 1) then
    Raise (ValueError "Probabilities must sum to one")
  else
    p' <- binop Rdiv p (fl_sum_last_keepdims fsum p) ;;
    let logp := map_array log p' in
    let u := [logp] in
    Ok u.
End Formulas.

Definition from_values (x : ndarray) : result t :=
  if (ndim x <? 1)%nat then
    Raise (ValueError "Probabilities must be given as a vector")
  else
    categories <- last_dim x ;;
    Ok (init categories).

End DirichletMoments.

(** ** class DirichletDistribution *)

Module DirichletDistribution.

(** The message to a parent is not implemented: whatever the arguments
    are, the body raises. *)
Definition compute_message_to_parent {P I : Type}
    (parent : P) (index : I) (u_self u_alpha : list ndarray)
  : result (list ndarray) :=
  Raise NotImplementedError.

(** [mask] is accepted and never read. *)
Definition compute_phi_from_parents {M : Type}
    (u_alpha : list ndarray) (mask : M) : result (list ndarray) :=
  u_alpha0 <- item u_alpha 0 ;;
  Ok [u_alpha0].

Definition compute_cgf_from_parents (u_alpha : list ndarray)
  : result ndarray :=
  item u_alpha 1.

Section Formulas.
Variables gammaln psi log : R -> R.
Variable polygamma : nat -> R -> R.
Variable fsum : list R -> R.

Definition compute_moments_and_cgf {M : Type}
    (phi : list ndarray) (mask : M)
  : result (list ndarray * ndarray) :=
  phi_array <- asanyarray_list phi ;;
  if any_le phi_array 0 then
    Raise (ValueError "Natural parameters should be positive")
  else
    phi0 <- item phi 0 ;;
    let sum_gammaln := sum_last (map_array gammaln phi0) in
    let gammaln_sum := map_array gammaln (sum_last phi0) in
    let psi_sum := map_array psi (sum_last_keepdims phi0) in
    u0 <- binop Rminus (map_array psi phi0) psi_sum ;;
    let u := [u0] in
    g <- binop Rminus gammaln_sum sum_gammaln ;;
    Ok (u, g).

(** As in [DirichletMoments.compute_fixed_moments], the sums are the sums
    as NumPy computes them: the one of line 189 decides whether the
    function raises. *)
Definition compute_fixed_moments_and_f {M : Type}
    (p : ndarray) (mask : M) : result (list ndarray * ndarray) :=
  if (ndim p <? 1)%nat then
    Raise (ValueError "Probabilities must be given as a vector")
  else if any_lt p 0 || any_gt p 1 then
    Raise (ValueError "Probabilities must be in range [0,1]")
  else if negb (allclose (fl_sum_last fsum p) 1) then
    Raise (ValueError "Probabilities must sum to one")
  else
    p' <- binop Rdiv p (fl_sum_last_keepdims fsum p) ;;
    let logp := map_array log p' in
    let u := [logp] in
    let f := map_array Ropp (fl_sum_last fsum logp) in
    Ok (u, f).

(** [u] is accepted and never read. *)
Definition compute_gradient (g u phi : list ndarray)
  : result (list ndarray) :=
  phi0 <- item phi 0 ;;
  let sum_phi := sum_last_keepdims phi0 in
  g0 <- item g 0 ;;
  diff <- binop Rminus (map_array (polygamma 1) phi0)
                       (map_array (polygamma 1) sum_phi) ;;
  d0 <- binop Rmult g0 diff ;;
  Ok [d0].
End Formulas.

End DirichletDistribution.

(** ** Arrays as objects

    Python passes arrays by reference. The store holds the array objects
    that exist; a reference is a position in it. The operations below are
    NumPy's, with every allocation written out: a reduction, a binary
    operation and a unary function each return a new array, whereas the
    augmented assignment [a /= b] writes into [a]. *)

Definition ref : Type := nat.
Definition store : Type := list ndarray.

(** A computation on the store: a result, or an exception, and the store
    it leaves. *)
Definition ST (A : Type) : Type := store -> result A * store.

Definition ret {A} (a : A) : ST A := fun h => (Ok a, h).
Definition throw {A} (e : exn) : ST A := fun h => (Raise e, h).

Definition bindS {A B} (c : ST A) (k : A -> ST B) : ST B :=
  fun h =>
    match c h with
    | (Ok a, h') => k a h'
    | (Raise e, h') => (Raise e, h')
    end.

Notation "x <~ c ;; k" := (bindS c (fun x => k))
  (at level 61, c at next level, right associativity).

Definition lift {A} (r : result A) : ST A := fun h => (r, h).

Definition deref (h : store) (l : ref) : ndarray := nth l h (mk_array [] []).

Definition load (l : ref) : ST ndarray := fun h => (Ok (deref h l), h).
Definition alloc (a : ndarray) : ST ref :=
  fun h => (Ok (List.length h), h ++ [a]).

(** Overwrite the object at [l]. *)
Fixpoint update (h : store) (l : ref) (a : ndarray) : store :=
  match h, l with
  | [], _ => []
  | _ :: t, O => a :: t
  | x :: t, S l' => x :: update t l' a
  end.
Definition write (l : ref) (a : ndarray) : ST unit :=
  fun h => (Ok tt, update h l a).

(** What a caller may pass where an array is expected: an array object, or
    a Python scalar or nested list, given here by the array it converts
    to. *)
Inductive array_like : Type :=
| Array (l : ref)
| Nested (a : ndarray).

(** [np.asanyarray(x)]: an array is passed through as it is (the same
    object), anything else is converted into a new array. *)
Definition np_asanyarray (x : array_like) : ST ref :=
  match x with
  | Array l => ret l
  | Nested a => alloc a
  end.

(** [np.sum(a, axis=-1)] and [np.sum(a, axis=-1, keepdims=True)] *)
Definition np_sum (l : ref) : ST ref :=
  a <~ load l ;; alloc (sum_last a).
Definition np_sum_keepdims (l : ref) : ST ref :=
  a <~ load l ;; alloc (sum_last_keepdims a).

(** The same two reductions with the sums as NumPy computes them *)
Definition np_fl_sum (fsum : list R -> R) (l : ref) : ST ref :=
  a <~ load l ;; alloc (fl_sum_last fsum a).
Definition np_fl_sum_keepdims (fsum : list R -> R) (l : ref) : ST ref :=
  a <~ load l ;; alloc (fl_sum_last_keepdims fsum a).

(** [a / b] *)
Definition np_divide (la lb : ref) : ST ref :=
  a <~ load la ;; b <~ load lb ;;
  c <~ lift (binop Rdiv a b) ;;
  alloc c.

(** [a /= b], which the module does not use *)
Definition np_idivide (la lb : ref) : ST unit :=
  a <~ load la ;; b <~ load lb ;;
  c <~ lift (binop Rdiv a b) ;;
  write la c.

(** [f(a)] for a unary ufunc *)
Definition np_map (f : R -> R) (l : ref) : ST ref :=
  a <~ load l ;; alloc (map_array f a).

Module Stateful.
Section Formulas.
Variable log : R -> R.
Variable fsum : list R -> R.

(** [DirichletMoments.compute_fixed_moments], with the local variable
    [p] rebound by [p = np.asanyarray(p)] and again by
    [p = p / np.sum(...)]. *)
Definition compute_fixed_moments (p : array_like) : ST (list ref) :=
  p <~ np_asanyarray p ;;
  a <~ load p ;;
  if (ndim a <? 1)%nat then
    throw (ValueError "Probabilities must be given as a vector")
  else if any_lt a 0 || any_gt a 1 then
    throw (ValueError "Probabilities must be in range [0,1]")
  else
    s <~ np_fl_sum fsum p ;;
    sa <~ load s ;;
    if negb (allclose sa 1) then
      throw (ValueError "Probabilities must sum to one")
    else
      s' <~ np_fl_sum_keepdims fsum p ;;
      p <~ np_divide p s' ;;
      logp <~ np_map log p ;;
      let u := [logp] in
      ret u.

(** [DirichletDistribution.compute_fixed_moments_and_f] *)
Definition compute_fixed_moments_and_f {M : Type}
    (p : array_like) (mask : M) : ST (list ref * ref) :=
  p <~ np_asanyarray p ;;
  a <~ load p ;;
  if (ndim a <? 1)%nat then
    throw (ValueError "Probabilities must be given as a vector")
  else if any_lt a 0 || any_gt a 1 then
    throw (ValueError "Probabilities must be in range [0,1]")
  else
    s <~ np_fl_sum fsum p ;;
    sa <~ load s ;;
    if negb (allclose sa 1) then
      throw (ValueError "Probabilities must sum to one")
    else
      s' <~ np_fl_sum_keepdims fsum p ;;
      p <~ np_divide p s' ;;
      logp <~ np_map log p ;;
      let u := [logp] in
      sl <~ np_fl_sum fsum logp ;;
      f <~ np_map Ropp sl ;;
      ret (u, f).
End Formulas.
End Stateful.

(** ** Reading a result entry by entry

    [entry a b k] is [a[b, k]]: the [k]-th entry on the trailing axis in
    batch cell [b] (the leading axes flattened); [trailing_sum a b] is
    the sum of [a[b, k]] over [k]. *)

Definition entry (a : ndarray) (b k : nat) : R := get a (b * row_len a + k).

Definition trailing_sum (a : ndarray) (b : nat) : R :=
  Rsum (map (entry a b) (seq 0 (row_len a))).

Definition all_entries (P : R -> Prop) (a : ndarray) : Prop :=
  forall x, In x (data a) -> P x.

Definition some_entry (P : R -> Prop) (a : ndarray) : Prop :=
  exists x, In x (data a) /\ P x.

(** What [np.allclose(x, 1.0)] accepts. *)
Definition close_to_one (x : R) : Prop :=
  Rabs (x - 1) <= atol + rtol * Rabs 1.

(** [computed_sum fsum a b] is the sum of [a[b, k]] over [k] as NumPy
    computes it. *)
Definition computed_sum (fsum : list R -> R) (a : ndarray) (b : nat) : R :=
  fl_row_sum fsum (map (entry a b) (seq 0 (row_len a))).

(** What the three checks of [compute_fixed_moments] and of
    [compute_fixed_moments_and_f] reject. *)
Definition rejected (fsum : list R -> R) (p : ndarray) : Prop :=
  (ndim p < 1)%nat \/
  some_entry (fun x => x < 0 \/ 1 < x) p \/
  exists b, (b < nrows p)%nat /\ ~ close_to_one (computed_sum fsum p b).

Definition accepted (fsum : list R -> R) (p : ndarray) : Prop :=
  (1 <= ndim p)%nat /\
  all_entries (fun x => 0 <= x <= 1) p /\
  forall b, (b < nrows p)%nat -> close_to_one (computed_sum fsum p b).

(** The store [h'] has every object of [h], unchanged, and possibly new
    ones. *)
Definition extends (h h' : store) : Prop := exists ext, h' = h ++ ext.

(** A computation that only allocates: whatever it returns or raises, it
    leaves every object that existed as it was. *)
Definition allocates_only {A} (c : ST A) : Prop :=
  forall h, extends h (snd (c h)).

(** The store version computes what the function on values computes: the
    same exception, or references to the same arrays. *)
Definition agrees {A B} (same : store -> A -> B -> Prop)
    (pure : result A) (run : result B * store) : Prop :=
  match pure, run with
  | Raise e, (Raise e', _) => e = e'
  | Ok a, (Ok b, h') => same h' a b
  | _, _ => False
  end.

(** [a - b] *)
Definition np_subtract (la lb : ref) : ST ref :=
  a <~ load la ;; b <~ load lb ;;
  c <~ lift (binop Rminus a b) ;;
  alloc c.

Module StatefulPrior.
Section Formulas.
Variable gammaln : R -> R.

(** [DirichletPriorMoments.compute_fixed_moments] on the store: the list
    that is returned holds the reference [alpha] itself, as
    [return [alpha, z]] does. *)
Definition compute_fixed_moments (alpha : array_like) : ST (list ref) :=
  alpha <~ np_asanyarray alpha ;;
  a <~ load alpha ;;
  if (ndim a <? 1)%nat then
    throw (ValueError "The prior sample sizes must be a vector")
  else if any_lt a 0 then
    throw (ValueError "The prior sample sizes must be non-negative")
  else
    s <~ np_sum alpha ;;
    gammaln_sum <~ np_map gammaln s ;;
    ga <~ np_map gammaln alpha ;;
    sum_gammaln <~ np_sum ga ;;
    z <~ np_subtract gammaln_sum sum_gammaln ;;
    ret [alpha; z].
End Formulas.
End StatefulPrior.

(** [np.asanyarray(phi)] for a Python list of array objects: the arrays
    are read and stacked into a new array. *)
Definition loads (ls : list ref) : ST (list ndarray) :=
  fun h => (Ok (map (deref h) ls), h).

Definition np_asanyarray_list (phi : list ref) : ST ref :=
  arrays <~ loads phi ;;
  stacked <~ lift (asanyarray_list arrays) ;;
  alloc stacked.

Module StatefulDistribution.
Section Formulas.
Variables gammaln psi : R -> R.

(** [DirichletDistribution.compute_moments_and_cgf] on the store; [phi]
    is a Python list of array objects. *)
Definition compute_moments_and_cgf {M : Type}
    (phi : list ref) (mask : M) : ST (list ref * ref) :=
  phi_array <~ np_asanyarray_list phi ;;
  a <~ load phi_array ;;
  if any_le a 0 then
    throw (ValueError "Natural parameters should be positive")
  else
    phi0 <~ lift (item phi 0) ;;
    ga <~ np_map gammaln phi0 ;;
    sum_gammaln <~ np_sum ga ;;
    s <~ np_sum phi0 ;;
    gammaln_sum <~ np_map gammaln s ;;
    sk <~ np_sum_keepdims phi0 ;;
    psi_sum <~ np_map psi sk ;;
    pa <~ np_map psi phi0 ;;
    u0 <~ np_subtract pa psi_sum ;;
    let u := [u0] in
    g <~ np_subtract gammaln_sum sum_gammaln ;;
    ret (u, g).
End Formulas.
End StatefulDistribution.

(** A reference that the store [h] does not hold yet. *)
Definition fresh (h : store) (l : ref) : Prop := (List.length h <= l)%nat.

(** * Properties *)

(** ** Comparisons *)

Lemma Rltb_true (x y : R) : Rltb x y = true <-> x < y.
Proof. unfold Rltb; destruct (Rlt_dec x y); split; intros; try discriminate; tauto. Qed.

Lemma Rltb_false (x y : R) : Rltb x y = false <-> y <= x.
Proof.
  unfold Rltb; destruct (Rlt_dec x y); split; intros; try discriminate; try lra; auto.
Qed.

Lemma Rleb_true (x y : R) : Rleb x y = true <-> x <= y.
Proof. unfold Rleb; destruct (Rle_dec x y); split; intros; try discriminate; tauto. Qed.

Lemma Rleb_false (x y : R) : Rleb x y = false <-> y < x.
Proof.
  unfold Rleb; destruct (Rle_dec x y); split; intros; try discriminate; try lra; auto.
Qed.

Lemma any_lt_true a c : any_lt a c = true <-> some_entry (fun x => x < c) a.
Proof.
  unfold any_lt, some_entry. rewrite existsb_exists.
  split; intros [x [Hin Hx]]; exists x; split; auto; now apply Rltb_true.
Qed.

Lemma any_gt_true a c : any_gt a c = true <-> some_entry (fun x => c < x) a.
Proof.
  unfold any_gt, some_entry. rewrite existsb_exists.
  split; intros [x [Hin Hx]]; exists x; split; auto; now apply Rltb_true.
Qed.

Lemma any_le_true a c : any_le a c = true <-> some_entry (fun x => x <= c) a.
Proof.
  unfold any_le, some_entry. rewrite existsb_exists.
  split; intros [x [Hin Hx]]; exists x; split; auto; now apply Rleb_true.
Qed.

Lemma any_le_false a c : any_le a c = false <-> all_entries (fun x => c < x) a.
Proof.
  unfold any_le, all_entries. split.
  - intros H x Hin. apply Rleb_false.
    destruct (Rleb x c) eqn:E; auto.
    assert (existsb (fun x => Rleb x c) (data a) = true) as Ht
      by (apply existsb_exists; eauto).
    congruence.
  - intros H. destruct (existsb _ _) eqn:E; auto.
    apply existsb_exists in E as [x [Hin Hx]].
    apply Rleb_true in Hx. specialize (H x Hin). simpl in H. lra.
Qed.

Lemma allclose_true a b :
  allclose a b = true <->
  all_entries (fun x => Rabs (x - b) <= atol + rtol * Rabs b) a.
Proof.
  unfold allclose, all_entries, isclose. rewrite forallb_forall.
  split; intros H x Hin; apply Rleb_true; auto.
Qed.

Lemma existsb_false {A} (f : A -> bool) l :
  existsb f l = false <-> forall x, In x l -> f x = false.
Proof.
  rewrite <- not_true_iff_false, existsb_exists. split.
  - intros H x Hin. destruct (f x) eqn:E; auto. exfalso. apply H. eauto.
  - intros H [x [Hin Hx]]. rewrite (H x Hin) in Hx. discriminate.
Qed.

Lemma forallb_false {A} (f : A -> bool) l :
  forallb f l = false <-> exists x, In x l /\ f x = false.
Proof.
  induction l as [|y l IH]; simpl.
  - split; [discriminate | intros [x [[] _]]].
  - rewrite andb_false_iff, IH. split.
    + intros [Hy | [x [Hin Hx]]]; eauto.
    + intros [x [[<- | Hin] Hx]]; eauto.
Qed.

Lemma range_check_true a :
  any_lt a 0 || any_gt a 1 = true <->
  some_entry (fun x => x < 0 \/ 1 < x) a.
Proof.
  rewrite orb_true_iff, any_lt_true, any_gt_true. unfold some_entry.
  split.
  - intros [[x [Hin Hx]] | [x [Hin Hx]]]; exists x; auto.
  - intros [x [Hin [Hx | Hx]]]; [left | right]; exists x; auto.
Qed.

Lemma range_check_false a :
  any_lt a 0 || any_gt a 1 = false <->
  all_entries (fun x => 0 <= x <= 1) a.
Proof.
  rewrite orb_false_iff. unfold any_lt, any_gt, all_entries.
  rewrite !existsb_false. split.
  - intros [H0 H1] x Hin. specialize (H0 x Hin). specialize (H1 x Hin).
    apply Rltb_false in H0, H1. lra.
  - intros H. split; intros x Hin; apply Rltb_false; specialize (H x Hin);
      simpl in H; lra.
Qed.

Lemma allclose_false a b :
  allclose a b = false <->
  some_entry (fun x => ~ Rabs (x - b) <= atol + rtol * Rabs b) a.
Proof.
  unfold allclose, some_entry, isclose. rewrite forallb_false.
  split; intros [x [Hin Hx]]; exists x; split; auto.
  - apply Rleb_false in Hx. lra.
  - apply Rleb_false. lra.
Qed.

(** ** Shapes *)

Lemma size_of_app s1 s2 : size_of (s1 ++ s2) = (size_of s1 * size_of s2)%nat.
Proof.
  induction s1 as [|d s1 IH]; simpl.
  - lia.
  - rewrite IH. lia.
Qed.

Lemma size_of_rev s : size_of (rev s) = size_of s.
Proof.
  induction s as [|d s IH]; simpl; auto.
  rewrite size_of_app, IH. simpl. lia.
Qed.

Lemma shape_split a :
  (1 <= ndim a)%nat -> shape a = batch_shape a ++ [row_len a].
Proof.
  unfold ndim, batch_shape, row_len. intros H.
  apply app_removelast_last. destruct (shape a); simpl in *; [lia | discriminate].
Qed.

(** The entries of an array are its rows, one after the other. *)
Lemma size_rows a : size_of (shape a) = (nrows a * row_len a)%nat.
Proof.
  unfold nrows, batch_shape, row_len.
  destruct (shape a) as [|d s] eqn:E.
  - reflexivity.
  - rewrite <- E.
    rewrite (app_removelast_last 1%nat) at 1 by (rewrite E; discriminate).
    rewrite size_of_app. simpl. lia.
Qed.

Lemma keep_shape_rev a :
  rev (keep_shape (shape a)) =
  match rev (shape a) with [] => [] | _ :: r => 1%nat :: r end.
Proof.
  unfold keep_shape. destruct (shape a) as [|d s] eqn:E.
  - reflexivity.
  - rewrite <- E.
    assert (Hne : shape a <> []) by (rewrite E; discriminate).
    rewrite (app_removelast_last 1%nat Hne) at 2.
    rewrite !rev_app_distr. reflexivity.
Qed.

Lemma rev_shape a :
  (1 <= ndim a)%nat -> rev (shape a) = row_len a :: rev (batch_shape a).
Proof.
  intros H. rewrite (shape_split a H) at 1. now rewrite rev_app_distr.
Qed.

(** ** Broadcasting *)

Lemma broadcast_rev_same r : broadcast_rev r r = Some r.
Proof.
  induction r as [|d r IH]; simpl; auto.
  rewrite IH, Nat.eqb_refl. reflexivity.
Qed.

Lemma broadcast_rev_one k r : broadcast_rev (k :: r) (1%nat :: r) = Some (k :: r).
Proof.
  simpl. rewrite broadcast_rev_same.
  destruct (Nat.eqb k 1) eqn:E; auto.
Qed.

Lemma source_index_same r : forall i st,
  (i < size_of r)%nat -> source_index r r i st = (i * st)%nat.
Proof.
  induction r as [|d r IH]; intros i st Hi; simpl in *.
  - lia.
  - assert (Hd : d <> 0%nat) by (intros ->; simpl in Hi; lia).
    assert (Hq : (i / d < size_of r)%nat)
      by (apply Nat.Div0.div_lt_upper_bound; lia).
    rewrite (IH _ _ Hq).
    pose proof (Nat.div_mod i d Hd) as Hdm.
    destruct (Nat.eqb d 1) eqn:E.
    + apply Nat.eqb_eq in E. subst d.
      rewrite Nat.div_1_r. lia.
    + nia.
Qed.

Lemma source_index_row k r i :
  (i < k * size_of r)%nat ->
  source_index (1%nat :: r) (k :: r) i 1 = (i / k)%nat.
Proof.
  intros Hi. simpl.
  assert (Hq : (i / k < size_of r)%nat)
    by (apply Nat.Div0.div_lt_upper_bound; lia).
  rewrite (source_index_same _ _ _ Hq). lia.
Qed.

(** Two arrays of one shape: the operation is applied entry by entry. *)
Lemma binop_same_shape f a b :
  shape a = shape b ->
  binop f a b =
  Ok (mk_array (shape a)
        (map (fun i => f (get a i) (get b i)) (seq 0 (size_of (shape a))))).
Proof.
  intros E. unfold binop, broadcast_shapes.
  rewrite <- E, broadcast_rev_same. simpl. rewrite rev_involutive.
  f_equal. f_equal. apply map_ext_in. intros i Hi. apply in_seq in Hi.
  unfold broadcast_get. rewrite <- E.
  rewrite source_index_same by (rewrite size_of_rev; lia).
  now rewrite Nat.mul_1_r.
Qed.

(** An array and one value per row, as [keepdims=True] shapes it: the
    value of the row is broadcast along the trailing axis. *)
Lemma binop_rows f a d :
  binop f a (mk_array (keep_shape (shape a)) d) =
  Ok (mk_array (shape a)
        (map (fun i => f (get a i) (nth (i / row_len a) d 0))
             (seq 0 (size_of (shape a))))).
Proof.
  unfold binop, broadcast_shapes. cbn [shape].
  rewrite keep_shape_rev.
  destruct (shape a) as [|d0 s] eqn:E.
  - cbn. unfold broadcast_get, get, row_len. rewrite E. cbn. reflexivity.
  - assert (Hnd : (1 <= ndim a)%nat) by (unfold ndim; rewrite E; simpl; lia).
    rewrite <- E. rewrite (rev_shape a Hnd).
    rewrite broadcast_rev_one. cbn [option_map].
    rewrite <- (rev_shape a Hnd), rev_involutive.
    f_equal. f_equal. apply map_ext_in. intros i Hi. apply in_seq in Hi.
    unfold broadcast_get. cbn [shape].
    rewrite source_index_same by (rewrite size_of_rev; lia).
    rewrite keep_shape_rev, (rev_shape a Hnd).
    rewrite source_index_row.
    + rewrite Nat.mul_1_r. reflexivity.
    + rewrite size_of_rev. fold (nrows a).
      rewrite size_rows in Hi. lia.
Qed.

(** Broadcasting on small shapes, as NumPy does it. *)

Example broadcast_matrix_vector :
  broadcast_shapes [2; 3]%nat [3]%nat = Some [2; 3]%nat.
Proof. reflexivity. Qed.

Example broadcast_column_row :
  broadcast_shapes [2; 1]%nat [1; 3]%nat = Some [2; 3]%nat.
Proof. reflexivity. Qed.

Example broadcast_mismatch : broadcast_shapes [2; 3]%nat [2]%nat = None.
Proof. reflexivity. Qed.

Example sum_last_matrix :
  sum_last (mk_array [2; 2]%nat [1; 2; 3; 4])
  = mk_array [2%nat] [1 + (2 + 0); 3 + (4 + 0)].
Proof. reflexivity. Qed.

Example sum_last_keepdims_matrix :
  sum_last_keepdims (mk_array [2; 2]%nat [1; 2; 3; 4])
  = mk_array [2; 1]%nat [1 + (2 + 0); 3 + (4 + 0)].
Proof. reflexivity. Qed.

Example sum_last_scalar : sum_last (scalar 5) = mk_array [] [5 + 0].
Proof. reflexivity. Qed.

Example minus_column :
  binop Rminus (mk_array [2; 2]%nat [1; 2; 3; 4]) (mk_array [2; 1]%nat [10; 20])
  = Ok (mk_array [2; 2]%nat [1 - 10; 2 - 10; 3 - 20; 4 - 20]).
Proof. reflexivity. Qed.

Example times_scalar :
  binop Rmult (scalar 2) (vector [1; 2; 3])
  = Ok (vector [2 * 1; 2 * 2; 2 * 3]).
Proof. reflexivity. Qed.

(** ** Rows and their sums *)

Lemma firstn_skipn_nth (l : list R) : forall m n,
  (n + m <= List.length l)%nat ->
  firstn m (skipn n l) = map (fun j => nth (n + j) l 0) (seq 0 m).
Proof.
  induction m as [|m IH]; intros n Hn.
  - reflexivity.
  - assert (Hs : skipn n l = nth n l 0 :: skipn (S n) l).
    { clear IH. revert n Hn. induction l as [|x l IHl]; intros n Hn; simpl in Hn.
      - lia.
      - destruct n as [|n]; [reflexivity|].
        simpl. apply IHl. lia. }
    rewrite Hs. cbn [firstn seq map]. rewrite Nat.add_0_r. f_equal.
    rewrite IH by lia. rewrite <- seq_shift, map_map.
    apply map_ext. intros j. f_equal. lia.
Qed.

Lemma row_entries a b :
  wf a -> (b < nrows a)%nat -> row a b = map (entry a b) (seq 0 (row_len a)).
Proof.
  intros Hwf Hb. unfold row, entry, get.
  apply firstn_skipn_nth. rewrite Hwf, size_rows. nia.
Qed.

Lemma nth_map_seq (g : nat -> R) n i :
  (i < n)%nat -> nth i (map g (seq 0 n)) 0 = g i.
Proof.
  intros Hi. rewrite (nth_indep _ 0 (g 0%nat)) by (rewrite length_map, length_seq; lia).
  rewrite (map_nth g (seq 0 n) 0%nat i). now rewrite seq_nth.
Qed.

Lemma row_sums_length a : List.length (row_sums a) = nrows a.
Proof. unfold row_sums. now rewrite length_map, length_seq. Qed.

Lemma row_sums_nth a b :
  wf a -> (b < nrows a)%nat -> nth b (row_sums a) 0 = trailing_sum a b.
Proof.
  intros Hwf Hb. unfold row_sums. rewrite nth_map_seq by assumption.
  unfold trailing_sum. now rewrite row_entries.
Qed.

(** Position [b * K + k] lies in row [b]. *)
Lemma entry_index a b k :
  (b < nrows a)%nat -> (k < row_len a)%nat ->
  (b * row_len a + k < size_of (shape a))%nat /\
  ((b * row_len a + k) / row_len a = b)%nat.
Proof.
  intros Hb Hk. rewrite size_rows. split; [nia|].
  rewrite Nat.div_add_l by lia. rewrite Nat.div_small by lia. lia.
Qed.

Lemma map_array_wf f a : wf a -> wf (map_array f a).
Proof. unfold wf, map_array. cbn. now rewrite length_map. Qed.

Lemma get_map_array f a i :
  (i < List.length (data a))%nat -> get (map_array f a) i = f (get a i).
Proof.
  intros Hi. unfold get, map_array. cbn.
  rewrite (nth_indep _ 0 (f 0)) by (rewrite length_map; lia).
  apply map_nth.
Qed.

Lemma entry_map_array f a b k :
  wf a -> (b < nrows a)%nat -> (k < row_len a)%nat ->
  entry (map_array f a) b k = f (entry a b k).
Proof.
  intros Hwf Hb Hk. unfold entry.
  change (row_len (map_array f a)) with (row_len a).
  apply get_map_array. rewrite Hwf. now apply entry_index.
Qed.

Lemma trailing_sum_map_array f a b :
  wf a -> (b < nrows a)%nat ->
  trailing_sum (map_array f a) b =
  Rsum (map (fun k => f (entry a b k)) (seq 0 (row_len a))).
Proof.
  intros Hwf Hb. unfold trailing_sum.
  change (row_len (map_array f a)) with (row_len a).
  f_equal. apply map_ext_in. intros k Hk. apply in_seq in Hk.
  apply entry_map_array; auto; lia.
Qed.

(** An entry of the result of a row-wise broadcast. *)
Lemma entry_rows (f : R -> R -> R) a d b k :
  (b < nrows a)%nat -> (k < row_len a)%nat ->
  entry (mk_array (shape a)
           (map (fun i => f (get a i) (nth (i / row_len a) d 0))
                (seq 0 (size_of (shape a))))) b k
  = f (entry a b k) (nth b d 0).
Proof.
  intros Hb Hk. destruct (entry_index a b k Hb Hk) as [Hlt Hdiv].
  unfold entry at 1, get at 1, row_len at 1. cbn [shape data].
  fold (row_len a). rewrite nth_map_seq by assumption.
  rewrite Hdiv. reflexivity.
Qed.

(** [psi(phi0) - psi(sum)]: a function of the entries combined with a
    function of the row sums. *)
Lemma binop_row_sums f h1 h2 a :
  wf a ->
  exists r,
    binop f (map_array h1 a) (map_array h2 (sum_last_keepdims a)) = Ok r /\
    shape r = shape a /\ wf r /\
    forall b k, (b < nrows a)%nat -> (k < row_len a)%nat ->
      entry r b k = f (h1 (entry a b k)) (h2 (trailing_sum a b)).
Proof.
  intros Hwf. eexists. split.
  - exact (binop_rows f (map_array h1 a) (map h2 (row_sums a))).
  - cbn [shape map_array]. split; [reflexivity|]. split.
    + unfold wf. cbn. now rewrite length_map, length_seq.
    + intros b k Hb Hk.
      rewrite (entry_rows f (map_array h1 a)) by assumption.
      rewrite entry_map_array by assumption. f_equal.
      rewrite (nth_indep _ 0 (h2 0)) by (rewrite length_map, row_sums_length; lia).
      rewrite map_nth. f_equal. now apply row_sums_nth.
Qed.

(** [gammaln(sum) - sum(gammaln)]: two reductions of one array. *)
Lemma binop_reduced f h1 h2 a :
  wf a ->
  exists r,
    binop f (map_array h1 (sum_last a)) (sum_last (map_array h2 a)) = Ok r /\
    shape r = batch_shape a /\ wf r /\
    forall b, (b < nrows a)%nat ->
      get r b = f (h1 (trailing_sum a b))
                  (Rsum (map (fun k => h2 (entry a b k)) (seq 0 (row_len a)))).
Proof.
  intros Hwf. eexists. split; [apply binop_same_shape; reflexivity|].
  cbn [shape map_array sum_last]. split; [reflexivity|]. split.
  - unfold wf. cbn. now rewrite length_map, length_seq.
  - intros b Hb. unfold get at 1. cbn [data].
    fold (nrows a). rewrite nth_map_seq by assumption. f_equal.
    + rewrite get_map_array by (cbn; rewrite row_sums_length; lia).
      f_equal. unfold get. cbn. now apply row_sums_nth.
    + unfold get. cbn [data sum_last].
      rewrite row_sums_nth; auto using map_array_wf.
      now apply trailing_sum_map_array.
Qed.

(** ** compute_moments_and_cgf *)

Section MomentsAndCgf.
Variables gammaln psi : R -> R.
Context {M : Type} (mask : M).

Local Abbreviation cmc phi :=
  (DirichletDistribution.compute_moments_and_cgf gammaln psi phi mask).

(** The guard reads exactly the entries of [phi[0]] when [phi] is the
    one-element list [[phi0]]. *)
Lemma cmc_guard phi0 :
  cmc [phi0] =
  if any_le phi0 0 then
    Raise (ValueError "Natural parameters should be positive")
  else
    u0 <- binop Rminus (map_array psi phi0)
                       (map_array psi (sum_last_keepdims phi0)) ;;
    g <- binop Rminus (map_array gammaln (sum_last phi0))
                      (sum_last (map_array gammaln phi0)) ;;
    Ok ([u0], g).
Proof.
  unfold DirichletDistribution.compute_moments_and_cgf.
  cbn [asanyarray_list same_shapes forallb bind].
  unfold any_le. cbn [data map List.concat]. rewrite app_nil_r.
  reflexivity.
Qed.

(** Past the guard nothing can fail: the shapes always broadcast. *)
Lemma cmc_returns phi0 :
  any_le phi0 0 = false -> returns (cmc [phi0]).
Proof.
  intros Hg. rewrite cmc_guard, Hg.
  pose proof (binop_rows Rminus (map_array psi phi0)
                (map psi (row_sums phi0))) as H1.
  unfold sum_last_keepdims, map_array in *. cbn [shape data] in *.
  rewrite H1. cbn [bind].
  rewrite binop_same_shape by reflexivity. cbn [bind].
  eexists. reflexivity.
Qed.

Lemma cmc_raises_iff phi0 :
  invalid_argument (cmc [phi0]) <-> some_entry (fun x => x <= 0) phi0.
Proof.
  rewrite <- any_le_true. split.
  - intros [msg Hr]. destruct (any_le phi0 0) eqn:Hg; auto.
    destruct (cmc_returns phi0 Hg) as [v Hv]. congruence.
  - intros Hg. rewrite cmc_guard, Hg. eexists. reflexivity.
Qed.
End MomentsAndCgf.

(** A batch of two rows: each row is reduced on its own. *)
Example cmc_batch (gammaln psi : R -> R) :
  DirichletDistribution.compute_moments_and_cgf gammaln psi
    [mk_array [2; 2]%nat [1; 2; 3; 4]] true
  = Ok ([mk_array [2; 2]%nat
           [psi 1 - psi (1 + (2 + 0)); psi 2 - psi (1 + (2 + 0));
            psi 3 - psi (3 + (4 + 0)); psi 4 - psi (3 + (4 + 0))]],
        mk_array [2%nat]
          [gammaln (1 + (2 + 0)) - (gammaln 1 + (gammaln 2 + 0));
           gammaln (3 + (4 + 0)) - (gammaln 3 + (gammaln 4 + 0))]).
Proof.
  rewrite cmc_guard.
  assert (Hg : any_le (mk_array [2; 2]%nat [1; 2; 3; 4]) 0 = false).
  { apply any_le_false. intros x [<-|[<-|[<-|[<-|[]]]]]; lra. }
  rewrite Hg. reflexivity.
Qed.

(** C1. For every natural parameter [phi = [phi0]] whose entries are all
    strictly positive, [compute_moments_and_cgf] returns [([u0], g)] where
    [u0] has the shape of [phi0] and, in every batch cell [b],
    [u0[b, k] = psi(phi0[b, k]) - psi(sum_j phi0[b, j])], and [g] has the
    shape of the leading axes with
    [g[b] = gammaln(sum_j phi0[b, j]) - sum_k gammaln(phi0[b, k])]. *)
Theorem compute_moments_and_cgf_formula :
  forall (gammaln psi : R -> R) (M : Type) (mask : M) (phi0 : ndarray),
    wf phi0 ->
    all_entries (fun x => 0 < x) phi0 ->
    exists u0 g,
      DirichletDistribution.compute_moments_and_cgf gammaln psi [phi0] mask
      = Ok ([u0], g) /\
      shape u0 = shape phi0 /\ wf u0 /\
      shape g = batch_shape phi0 /\ wf g /\
      (forall b k, (b < nrows phi0)%nat -> (k < row_len phi0)%nat ->
         entry u0 b k = psi (entry phi0 b k) - psi (trailing_sum phi0 b)) /\
      (forall b, (b < nrows phi0)%nat ->
         get g b =
         gammaln (trailing_sum phi0 b)
         - Rsum (map (fun k => gammaln (entry phi0 b k))
                     (seq 0 (row_len phi0)))).
Proof.
  intros gammaln psi M mask phi0 Hwf Hpos.
  (* the guard passes *)
  apply any_le_false in Hpos. rewrite cmc_guard, Hpos.
  (* psi(phi0) - psi(sum), the sum broadcast along the trailing axis *)
  destruct (binop_row_sums Rminus psi psi phi0 Hwf)
    as (u0 & Hu & Hsu & Hwu & Hu0).
  (* gammaln(sum) - sum(gammaln), both of the shape of the leading axes *)
  destruct (binop_reduced Rminus gammaln gammaln phi0 Hwf)
    as (g & Hg & Hsg & Hwg & Hg0).
  exists u0, g. rewrite Hu. cbn [bind]. rewrite Hg. cbn [bind].
  repeat split; auto.
Qed.

Lemma compute_moments_and_cgf_formula_witness :
  wf (vector [1; 2]) /\
  all_entries (fun x => 0 < x) (vector [1; 2]) /\
  returns (DirichletDistribution.compute_moments_and_cgf ln ln
             [vector [1; 2]] true).
Proof.
  assert (Hwf : wf (vector [1; 2])) by reflexivity.
  assert (Hpos : all_entries (fun x => 0 < x) (vector [1; 2])).
  { intros x [<-|[<-|[]]]; lra. }
  split; [exact Hwf|]. split; [exact Hpos|].
  destruct (compute_moments_and_cgf_formula ln ln bool true _ Hwf Hpos)
    as (u0 & g & Hr & _).
  exists ([u0], g). exact Hr.
Defined.

(** ** The checks on a probability array *)

Section ComputedSums.
Variable fsum : list R -> R.

Lemma fl_row_sums_length a : List.length (fl_row_sums fsum a) = nrows a.
Proof. unfold fl_row_sums. now rewrite length_map, length_seq. Qed.

Lemma fl_row_sums_nth a b :
  wf a -> (b < nrows a)%nat ->
  nth b (fl_row_sums fsum a) 0 = computed_sum fsum a b.
Proof.
  intros Hwf Hb. unfold fl_row_sums. rewrite nth_map_seq by assumption.
  unfold computed_sum. now rewrite row_entries.
Qed.

Lemma fl_row_sums_In a x :
  wf a ->
  In x (fl_row_sums fsum a) <->
  exists b, (b < nrows a)%nat /\ x = computed_sum fsum a b.
Proof.
  intros Hwf. unfold fl_row_sums. rewrite in_map_iff. split.
  - intros [b [Hx Hb]]. apply in_seq in Hb. exists b. split; [lia|].
    subst x. unfold computed_sum. rewrite row_entries; auto; lia.
  - intros [b [Hb Hx]]. exists b. split; [|apply in_seq; lia].
    subst x. unfold computed_sum. rewrite row_entries; auto.
Qed.

Lemma fl_sum_last_wf a : wf (fl_sum_last fsum a).
Proof. unfold wf, fl_sum_last. cbn. apply fl_row_sums_length. Qed.

Lemma computed_sum_map_array f a b :
  wf a -> (b < nrows a)%nat ->
  computed_sum fsum (map_array f a) b =
  fl_row_sum fsum (map (fun k => f (entry a b k)) (seq 0 (row_len a))).
Proof.
  intros Hwf Hb. unfold computed_sum.
  change (row_len (map_array f a)) with (row_len a).
  f_equal. apply map_ext_in. intros k Hk. apply in_seq in Hk.
  apply entry_map_array; auto; lia.
Qed.

(** [p / np.sum(p, axis=-1, keepdims=True)], with the sums as computed *)
Lemma binop_own_fl_sums f a :
  wf a ->
  exists r,
    binop f a (fl_sum_last_keepdims fsum a) = Ok r /\
    shape r = shape a /\ wf r /\
    forall b k, (b < nrows a)%nat -> (k < row_len a)%nat ->
      entry r b k = f (entry a b k) (computed_sum fsum a b).
Proof.
  intros Hwf. eexists. split.
  - exact (binop_rows f a (fl_row_sums fsum a)).
  - cbn [shape]. split; [reflexivity|]. split.
    + unfold wf. cbn. now rewrite length_map, length_seq.
    + intros b k Hb Hk. rewrite (entry_rows f a) by assumption.
      f_equal. now apply fl_row_sums_nth.
Qed.

Lemma sums_close_true p :
  wf p ->
  allclose (fl_sum_last fsum p) 1 = true <->
  forall b, (b < nrows p)%nat -> close_to_one (computed_sum fsum p b).
Proof.
  intros Hwf. rewrite allclose_true. unfold all_entries, close_to_one.
  cbn [fl_sum_last data]. split.
  - intros H b Hb. apply H. apply fl_row_sums_In; eauto.
  - intros H x Hin. apply fl_row_sums_In in Hin as [b [Hb ->]]; auto.
Qed.

Lemma sums_close_false p :
  wf p ->
  allclose (fl_sum_last fsum p) 1 = false <->
  exists b, (b < nrows p)%nat /\ ~ close_to_one (computed_sum fsum p b).
Proof.
  intros Hwf. rewrite allclose_false. unfold some_entry, close_to_one.
  cbn [fl_sum_last data]. split.
  - intros [x [Hin Hx]]. apply fl_row_sums_In in Hin as [b [Hb ->]]; eauto.
  - intros [b [Hb Hx]]. eexists. split; [|exact Hx].
    apply fl_row_sums_In; eauto.
Qed.

Lemma ndim_check_true (a : ndarray) : (ndim a <? 1)%nat = true <-> (ndim a < 1)%nat.
Proof. apply Nat.ltb_lt. Qed.

Lemma ndim_check_false (a : ndarray) : (ndim a <? 1)%nat = false <-> (1 <= ndim a)%nat.
Proof. apply Nat.ltb_ge. Qed.

Lemma accepted_or_rejected p : wf p -> accepted fsum p \/ rejected fsum p.
Proof.
  intros Hwf. unfold accepted, rejected.
  destruct (ndim p <? 1)%nat eqn:E1.
  { right. left. now apply ndim_check_true. }
  destruct (any_lt p 0 || any_gt p 1) eqn:E2.
  { right. right. left. now apply range_check_true. }
  destruct (allclose (fl_sum_last fsum p) 1) eqn:E3.
  - left. split; [now apply ndim_check_false|].
    split; [now apply range_check_false | now apply sums_close_true].
  - right. right. right. now apply sums_close_false.
Qed.

Lemma accepted_not_rejected p : accepted fsum p -> ~ rejected fsum p.
Proof.
  intros (Hn & Hr & Hs) [H | [[x [Hin Hx]] | [b [Hb Hx]]]].
  - lia.
  - specialize (Hr x Hin). simpl in Hr. lra.
  - apply Hx. now apply Hs.
Qed.
End ComputedSums.

Section FixedMoments.
Variable log : R -> R.
Variable fsum : list R -> R.
Context {M : Type} (mask : M).

Local Abbreviation cfm p :=
  (DirichletMoments.compute_fixed_moments log fsum p).
Local Abbreviation cfmf p :=
  (DirichletDistribution.compute_fixed_moments_and_f log fsum p mask).

Lemma cfm_rejects p : wf p -> rejected fsum p -> invalid_argument (cfm p).
Proof.
  intros Hwf Hrej. unfold DirichletMoments.compute_fixed_moments.
  destruct (ndim p <? 1)%nat eqn:E1; [eexists; reflexivity|].
  destruct (any_lt p 0 || any_gt p 1) eqn:E2; [eexists; reflexivity|].
  destruct (allclose (fl_sum_last fsum p) 1) eqn:E3; [|eexists; reflexivity].
  exfalso. revert Hrej. apply accepted_not_rejected.
  split; [now apply ndim_check_false|].
  split; [now apply range_check_false | now apply sums_close_true].
Qed.

Lemma cfm_accepts p :
  wf p -> accepted fsum p ->
  exists u0,
    cfm p = Ok [u0] /\ shape u0 = shape p /\ wf u0 /\
    forall b k, (b < nrows p)%nat -> (k < row_len p)%nat ->
      entry u0 b k = log (entry p b k / computed_sum fsum p b).
Proof.
  intros Hwf (Hn & Hr & Hs). unfold DirichletMoments.compute_fixed_moments.
  apply ndim_check_false in Hn. apply range_check_false in Hr.
  apply sums_close_true in Hs; auto. rewrite Hn, Hr, Hs. cbn [negb].
  destruct (binop_own_fl_sums fsum Rdiv p Hwf) as (p' & Hp' & Hsh & Hwp & He).
  rewrite Hp'. cbn [bind]. eexists. split; [reflexivity|].
  split; [exact Hsh|]. split; [now apply map_array_wf|].
  intros b k Hb Hk.
  assert (Hnr : nrows p' = nrows p) by (unfold nrows, batch_shape; now rewrite Hsh).
  assert (Hrl : row_len p' = row_len p) by (unfold row_len; now rewrite Hsh).
  rewrite entry_map_array by (auto; lia). now rewrite He.
Qed.

Lemma cfmf_rejects p : wf p -> rejected fsum p -> invalid_argument (cfmf p).
Proof.
  intros Hwf Hrej. unfold DirichletDistribution.compute_fixed_moments_and_f.
  destruct (ndim p <? 1)%nat eqn:E1; [eexists; reflexivity|].
  destruct (any_lt p 0 || any_gt p 1) eqn:E2; [eexists; reflexivity|].
  destruct (allclose (fl_sum_last fsum p) 1) eqn:E3; [|eexists; reflexivity].
  exfalso. revert Hrej. apply accepted_not_rejected.
  split; [now apply ndim_check_false|].
  split; [now apply range_check_false | now apply sums_close_true].
Qed.

Lemma cfmf_accepts p :
  wf p -> accepted fsum p ->
  exists u0 f,
    cfmf p = Ok ([u0], f) /\
    shape u0 = shape p /\ wf u0 /\ shape f = batch_shape p /\ wf f /\
    (forall b k, (b < nrows p)%nat -> (k < row_len p)%nat ->
       entry u0 b k = log (entry p b k / computed_sum fsum p b)) /\
    (forall b, (b < nrows p)%nat ->
       get f b =
       - fl_row_sum fsum
           (map (fun k => log (entry p b k / computed_sum fsum p b))
                (seq 0 (row_len p)))).
Proof.
  intros Hwf (Hn & Hr & Hs).
  unfold DirichletDistribution.compute_fixed_moments_and_f.
  apply ndim_check_false in Hn. apply range_check_false in Hr.
  apply sums_close_true in Hs; auto. rewrite Hn, Hr, Hs. cbn [negb].
  destruct (binop_own_fl_sums fsum Rdiv p Hwf) as (p' & Hp' & Hsh & Hwp & He).
  rewrite Hp'. cbn [bind].
  assert (Hnr : nrows p' = nrows p) by (unfold nrows, batch_shape; now rewrite Hsh).
  assert (Hrl : row_len p' = row_len p) by (unfold row_len; now rewrite Hsh).
  do 2 eexists. split; [reflexivity|].
  split; [exact Hsh|]. split; [now apply map_array_wf|].
  split; [cbn; unfold batch_shape; now rewrite Hsh|].
  split; [apply map_array_wf, fl_sum_last_wf|].
  split.
  - intros b k Hb Hk. rewrite entry_map_array by (auto; lia). now rewrite He.
  - intros b Hb.
    assert (Hb' : (b < nrows (map_array log p'))%nat)
      by (change (nrows (map_array log p')) with (nrows p'); lia).
    rewrite get_map_array
      by (cbn [fl_sum_last data]; now rewrite fl_row_sums_length).
    f_equal. unfold get. cbn [fl_sum_last data].
    rewrite fl_row_sums_nth by auto using map_array_wf.
    rewrite computed_sum_map_array by (auto; lia).
    rewrite Hrl. f_equal. apply map_ext_in. intros k Hk. apply in_seq in Hk.
    now rewrite He by lia.
Qed.
End FixedMoments.

(** Evaluation of the row sums of a small literal vector. *)
Ltac eval_row :=
  cbv [close_to_one trailing_sum computed_sum fl_row_sum entry get row_len
       nrows batch_shape vector scalar shape data last removelast size_of
       fold_right List.length seq map nth Rsum Nat.mul Nat.add atol rtol];
  rewrite ?Rabs_R1.

(** The row [[0.5, 0.4]] is rejected by every summation that is within
    0.001 of the exact sum on it. *)
Example half_and_four_tenths_rejected (fsum : list R -> R) :
  Rabs (fsum [5 / 10; 4 / 10] - (5 / 10 + 4 / 10)) <= 1 / 1000 ->
  rejected fsum (vector [5 / 10; 4 / 10]).
Proof.
  intros Hacc. right. right. exists 0%nat. split.
  - cbv. lia.
  - eval_row. intros H. revert Hacc H. unfold Rabs.
    destruct (Rcase_abs _); destruct (Rcase_abs _); lra.
Qed.

Example out_of_range_rejected (fsum : list R -> R) :
  rejected fsum (vector [- (1 / 10); 11 / 10]).
Proof.
  right. left. exists (- (1 / 10)). split; [now left | left; lra].
Qed.

Example scalar_rejected (fsum : list R -> R) x : rejected fsum (scalar x).
Proof. left. cbv. lia. Qed.

(** With the exact sum in the place of the computed one, [[0.5, 0.5]] is
    accepted. *)
Example half_half_accepted : accepted Rsum (vector [1 / 2; 1 / 2]).
Proof.
  split; [cbv; lia|]. split.
  - intros x [<-|[<-|[]]]; lra.
  - intros b Hb. assert (b = 0%nat) as -> by (cbv in Hb; lia).
    eval_row. replace (1 / 2 + (1 / 2 + 0) - 1) with 0 by lra.
    rewrite Rabs_R0. lra.
Qed.

(** C4. For every probability array [p] with all entries in (0, 1] whose
    sums along the trailing axis, as NumPy computes them, are within
    tolerance of 1, [compute_fixed_moments_and_f] returns [([u0], f)]
    with [u0[b, k] = log(p[b, k] / sum_j p[b, j])] and
    [f[b] = - sum_k log(p[b, k] / sum_j p[b, j])], the sums being the
    computed ones. *)
Theorem compute_fixed_moments_and_f_formula :
  forall (log : R -> R) (fsum : list R -> R) (M : Type) (mask : M)
         (p : ndarray),
    wf p ->
    (1 <= ndim p)%nat ->
    all_entries (fun x => 0 < x <= 1) p ->
    (forall b, (b < nrows p)%nat -> close_to_one (computed_sum fsum p b)) ->
    exists u0 f,
      DirichletDistribution.compute_fixed_moments_and_f log fsum p mask
      = Ok ([u0], f) /\
      shape u0 = shape p /\ wf u0 /\ shape f = batch_shape p /\ wf f /\
      (forall b k, (b < nrows p)%nat -> (k < row_len p)%nat ->
         entry u0 b k = log (entry p b k / computed_sum fsum p b)) /\
      (forall b, (b < nrows p)%nat ->
         get f b =
         - fl_row_sum fsum
             (map (fun k => log (entry p b k / computed_sum fsum p b))
                  (seq 0 (row_len p)))).
Proof.
  intros log fsum M mask p Hwf Hn Hr Hs. apply cfmf_accepts; auto.
  split; [exact Hn|]. split; [|exact Hs].
  intros x Hin. specialize (Hr x Hin). simpl in Hr. lra.
Qed.

Lemma compute_fixed_moments_and_f_formula_witness :
  wf (vector [1 / 2; 1 / 2]) /\
  (1 <= ndim (vector [1 / 2; 1 / 2]%R))%nat /\
  all_entries (fun x => 0 < x <= 1) (vector [1 / 2; 1 / 2]) /\
  (forall b, (b < nrows (vector [1 / 2; 1 / 2]%R))%nat ->
     close_to_one (computed_sum Rsum (vector [1 / 2; 1 / 2]) b)) /\
  returns (DirichletDistribution.compute_fixed_moments_and_f ln Rsum
             (vector [1 / 2; 1 / 2]) true).
Proof.
  destruct half_half_accepted as (Hn & _ & Hs).
  assert (Hwf : wf (vector [1 / 2; 1 / 2])) by reflexivity.
  assert (Hr : all_entries (fun x => 0 < x <= 1) (vector [1 / 2; 1 / 2])).
  { intros x [<-|[<-|[]]]; lra. }
  split; [exact Hwf|]. split; [exact Hn|]. split; [exact Hr|].
  split; [exact Hs|].
  destruct (compute_fixed_moments_and_f_formula ln Rsum bool true _
              Hwf Hn Hr Hs) as (u0 & f & Hres & _).
  exists ([u0], f). exact Hres.
Defined.

(** C5. [DirichletMoments.compute_fixed_moments] fails with an
    invalid-argument error exactly when the input has fewer than one
    dimension, or some entry lies outside [0, 1], or some sum along the
    trailing axis, as NumPy computes it, is not within
    [atol + rtol * |1|] of 1 (NumPy's defaults, 1e-8 and 1e-5). It fails
    for [[-0.1, 1.1]] and for a 0-dimensional scalar whatever the
    summation is, and for [[0.5, 0.4]] with every summation that is
    within 0.001 of the exact sum on that row. Otherwise it returns
    [[u0]] with [u0[b, k] = log(p[b, k] / sum_j p[b, j])], the sum being
    the computed one. *)
Theorem compute_fixed_moments_raises_iff :
  forall (log : R -> R) (fsum : list R -> R),
    (forall p, wf p ->
       (invalid_argument (DirichletMoments.compute_fixed_moments log fsum p)
        <->
        (ndim p < 1)%nat \/
        some_entry (fun x => x < 0 \/ 1 < x) p \/
        exists b, (b < nrows p)%nat /\
                  ~ Rabs (computed_sum fsum p b - 1) <= atol + rtol * Rabs 1)
       /\
       (~ invalid_argument (DirichletMoments.compute_fixed_moments log fsum p)
        ->
        exists u0,
          DirichletMoments.compute_fixed_moments log fsum p = Ok [u0] /\
          shape u0 = shape p /\ wf u0 /\
          forall b k, (b < nrows p)%nat -> (k < row_len p)%nat ->
            entry u0 b k = log (entry p b k / computed_sum fsum p b))) /\
    (Rabs (fsum [5 / 10; 4 / 10] - (5 / 10 + 4 / 10)) <= 1 / 1000 ->
     invalid_argument
       (DirichletMoments.compute_fixed_moments log fsum
          (vector [5 / 10; 4 / 10]))) /\
    invalid_argument
      (DirichletMoments.compute_fixed_moments log fsum
         (vector [- (1 / 10); 11 / 10])) /\
    (forall x,
       invalid_argument
         (DirichletMoments.compute_fixed_moments log fsum (scalar x))).
Proof.
  intros log fsum. split; [|split; [|split]].
  - intros p Hwf. split; [split|].
    + intros [msg Hr].
      destruct (accepted_or_rejected fsum p Hwf) as [Ha | Hrej]; [|exact Hrej].
      destruct (cfm_accepts log fsum p Hwf Ha) as (u0 & Hu & _). congruence.
    + apply (cfm_rejects log fsum p Hwf).
    + intros Hok.
      destruct (accepted_or_rejected fsum p Hwf) as [Ha | Hrej].
      * now apply cfm_accepts.
      * exfalso. apply Hok. now apply cfm_rejects.
  - intros Hacc.
    apply cfm_rejects;
      [reflexivity | now apply half_and_four_tenths_rejected].
  - apply cfm_rejects; [reflexivity | apply out_of_range_rejected].
  - intros x. apply cfm_rejects; [reflexivity | apply scalar_rejected].
Qed.

Lemma compute_fixed_moments_raises_iff_witness :
  wf (vector [1 / 2; 1 / 2]) /\
  Rabs (Rsum [5 / 10; 4 / 10] - (5 / 10 + 4 / 10)) <= 1 / 1000 /\
  returns (DirichletMoments.compute_fixed_moments ln Rsum
             (vector [1 / 2; 1 / 2])) /\
  invalid_argument
    (DirichletMoments.compute_fixed_moments ln Rsum (vector [5 / 10; 4 / 10])).
Proof.
  assert (Hwf : wf (vector [1 / 2; 1 / 2])) by reflexivity.
  assert (Hacc : Rabs (Rsum [5 / 10; 4 / 10] - (5 / 10 + 4 / 10)) <= 1 / 1000).
  { cbv [Rsum fold_right].
    replace (5 / 10 + (4 / 10 + 0) - (5 / 10 + 4 / 10)) with 0 by lra.
    rewrite Rabs_R0. lra. }
  split; [exact Hwf|]. split; [exact Hacc|].
  destruct (compute_fixed_moments_raises_iff ln Rsum) as (H & H54 & _).
  split; [|exact (H54 Hacc)].
  destruct (H _ Hwf) as [Hiff Hok].
  destruct Hok as (u0 & Hu & _).
  - intros Hinv. apply Hiff in Hinv.
    revert Hinv. apply accepted_not_rejected, half_half_accepted.
  - exists [u0]. exact Hu.
Defined.

(** ** DirichletPriorMoments.compute_fixed_moments *)

Lemma any_lt_false a c : any_lt a c = false <-> all_entries (fun x => c <= x) a.
Proof.
  unfold any_lt, all_entries. rewrite existsb_false.
  split; intros H x Hin; apply Rltb_false; auto.
Qed.

Section PriorMoments.
Variable gammaln : R -> R.

Local Abbreviation pcfm alpha :=
  (DirichletPriorMoments.compute_fixed_moments gammaln alpha).

Lemma pcfm_rejects alpha :
  (ndim alpha < 1)%nat \/ some_entry (fun x => x < 0) alpha ->
  invalid_argument (pcfm alpha).
Proof.
  intros Hrej. unfold DirichletPriorMoments.compute_fixed_moments.
  destruct (ndim alpha <? 1)%nat eqn:E1; [eexists; reflexivity|].
  destruct (any_lt alpha 0) eqn:E2; [eexists; reflexivity|].
  exfalso. apply ndim_check_false in E1.
  destruct Hrej as [H | [x [Hin Hx]]]; [lia|].
  apply any_lt_false in E2. specialize (E2 x Hin). simpl in E2. lra.
Qed.

(** Past the two checks the array itself is returned, with a second
    array of the shape of the leading axes. *)
Lemma pcfm_accepts alpha :
  (1 <= ndim alpha)%nat -> all_entries (fun x => 0 <= x) alpha ->
  exists z,
    pcfm alpha = Ok [alpha; z] /\ shape z = batch_shape alpha /\
    (wf alpha ->
     wf z /\
     forall b, (b < nrows alpha)%nat ->
       get z b =
       gammaln (trailing_sum alpha b)
       - Rsum (map (fun k => gammaln (entry alpha b k))
                   (seq 0 (row_len alpha)))).
Proof.
  intros Hn Hpos. unfold DirichletPriorMoments.compute_fixed_moments.
  apply ndim_check_false in Hn. apply any_lt_false in Hpos.
  rewrite Hn, Hpos.
  rewrite binop_same_shape by reflexivity. cbn [bind].
  eexists. split; [reflexivity|]. split; [reflexivity|].
  intros Hwf.
  destruct (binop_reduced Rminus gammaln gammaln alpha Hwf)
    as (z & Hz & Hsz & Hwz & Hz0).
  rewrite binop_same_shape in Hz by reflexivity.
  injection Hz as <-. auto.
Qed.

Lemma pcfm_raises_iff alpha :
  invalid_argument (pcfm alpha) <->
  (ndim alpha < 1)%nat \/ some_entry (fun x => x < 0) alpha.
Proof.
  split; [|apply pcfm_rejects].
  intros [msg Hr].
  destruct (ndim alpha <? 1)%nat eqn:E1.
  { left. now apply ndim_check_true. }
  destruct (any_lt alpha 0) eqn:E2.
  { right. now apply any_lt_true. }
  apply ndim_check_false in E1. apply any_lt_false in E2.
  destruct (pcfm_accepts alpha E1 E2) as (z & Hz & _). congruence.
Qed.
End PriorMoments.

(** C3. Round trip: for every concentration array [alpha] with at least
    one dimension and no negative entry, the natural parameter computed
    from the fixed moments of [alpha] has [alpha] itself as its entry 0;
    and [compute_phi_from_parents] returns the one-element list of the
    first parent moment, unchanged. *)
Theorem phi_from_fixed_moments_roundtrip :
  forall (gammaln : R -> R) (M : Type) (mask : M),
    (forall u0 rest,
       DirichletDistribution.compute_phi_from_parents (u0 :: rest) mask
       = Ok [u0]) /\
    (forall alpha,
       (1 <= ndim alpha)%nat ->
       all_entries (fun x => 0 <= x) alpha ->
       (u_alpha <- DirichletPriorMoments.compute_fixed_moments gammaln alpha ;;
        phi <- DirichletDistribution.compute_phi_from_parents u_alpha mask ;;
        item phi 0)
       = Ok alpha).
Proof.
  intros gammaln M mask. split.
  - reflexivity.
  - intros alpha Hn Hpos.
    destruct (pcfm_accepts gammaln alpha Hn Hpos) as (z & Hz & _).
    rewrite Hz. reflexivity.
Qed.

Lemma phi_from_fixed_moments_roundtrip_witness :
  (1 <= ndim (vector [0; 3]%R))%nat /\
  all_entries (fun x => 0 <= x) (vector [0; 3]) /\
  (u_alpha <- DirichletPriorMoments.compute_fixed_moments ln (vector [0; 3]) ;;
   phi <- DirichletDistribution.compute_phi_from_parents u_alpha true ;;
   item phi 0)
  = Ok (vector [0; 3]).
Proof.
  assert (Hn : (1 <= ndim (vector [0; 3]%R))%nat) by (cbv; lia).
  assert (Hpos : all_entries (fun x => 0 <= x) (vector [0; 3])).
  { intros x [<-|[<-|[]]]; lra. }
  split; [exact Hn|]. split; [exact Hpos|].
  destruct (phi_from_fixed_moments_roundtrip ln bool true) as [_ H].
  exact (H _ Hn Hpos).
Defined.

(** C6. [DirichletPriorMoments.compute_fixed_moments] fails with a
    [ValueError] exactly when the input has fewer than one dimension or
    some entry is negative; otherwise it returns [[alpha, z]], where [z]
    has the shape of the leading axes and
    [z[b] = gammaln(sum_k alpha[b, k]) - sum_k gammaln(alpha[b, k])]. *)
Theorem prior_compute_fixed_moments_spec :
  forall (gammaln : R -> R) (alpha : ndarray),
    wf alpha ->
    (invalid_argument
       (DirichletPriorMoments.compute_fixed_moments gammaln alpha) <->
     (ndim alpha < 1)%nat \/ some_entry (fun x => x < 0) alpha) /\
    (~ ((ndim alpha < 1)%nat \/ some_entry (fun x => x < 0) alpha) ->
     exists z,
       DirichletPriorMoments.compute_fixed_moments gammaln alpha
       = Ok [alpha; z] /\
       shape z = batch_shape alpha /\ wf z /\
       forall b, (b < nrows alpha)%nat ->
         get z b =
         gammaln (trailing_sum alpha b)
         - Rsum (map (fun k => gammaln (entry alpha b k))
                     (seq 0 (row_len alpha)))).
Proof.
  intros gammaln alpha Hwf. split; [apply pcfm_raises_iff|].
  intros Hok.
  assert (Hn : (1 <= ndim alpha)%nat) by lia.
  assert (Hpos : all_entries (fun x => 0 <= x) alpha).
  { intros x Hin. destruct (Rle_dec 0 x) as [|Hneg]; auto.
    exfalso. apply Hok. right. exists x. split; auto. lra. }
  destruct (pcfm_accepts gammaln alpha Hn Hpos) as (z & Hz & Hsz & Hrest).
  destruct (Hrest Hwf) as [Hwz Hz0]. eauto.
Qed.

Lemma prior_compute_fixed_moments_spec_witness :
  wf (vector [0; 3]) /\
  returns (DirichletPriorMoments.compute_fixed_moments ln (vector [0; 3])).
Proof.
  assert (Hwf : wf (vector [0; 3])) by reflexivity.
  split; [exact Hwf|].
  destruct (prior_compute_fixed_moments_spec ln _ Hwf) as [_ H].
  destruct H as (z & Hz & _).
  - intros [Hn | [x [Hin Hx]]].
    + cbv in Hn. lia.
    + destruct Hin as [<-|[<-|[]]]; lra.
  - eexists. exact Hz.
Defined.

(** ** compute_gradient *)

Lemma entry_same_shape (f : R -> R -> R) a c b k :
  shape c = shape a -> (b < nrows a)%nat -> (k < row_len a)%nat ->
  entry (mk_array (shape a)
           (map (fun i => f (get a i) (get c i)) (seq 0 (size_of (shape a)))))
        b k
  = f (entry a b k) (entry c b k).
Proof.
  intros Hsh Hb Hk. destruct (entry_index a b k Hb Hk) as [Hlt _].
  assert (Hrl : row_len c = row_len a) by (unfold row_len; now rewrite Hsh).
  unfold entry at 1, get at 1, row_len at 1. cbn [shape data].
  fold (row_len a). rewrite nth_map_seq by assumption.
  unfold entry. now rewrite Hrl.
Qed.

Section Gradient.
Variable polygamma : nat -> R -> R.

Local Abbreviation grad g u phi :=
  (DirichletDistribution.compute_gradient polygamma g u phi).

(** The body never looks at the sign of [phi]: a result is returned
    whenever [g[0]] has the shape of [phi[0]]. *)
Lemma grad_formula g0 gs u phi0 phis :
  wf phi0 -> shape g0 = shape phi0 ->
  exists d0,
    grad (g0 :: gs) u (phi0 :: phis) = Ok [d0] /\
    shape d0 = shape phi0 /\ wf d0 /\
    forall b k, (b < nrows phi0)%nat -> (k < row_len phi0)%nat ->
      entry d0 b k =
      entry g0 b k
      * (polygamma 1 (entry phi0 b k) - polygamma 1 (trailing_sum phi0 b)).
Proof.
  intros Hwf Hsh.
  unfold DirichletDistribution.compute_gradient. cbn [item nth_error bind].
  destruct (binop_row_sums Rminus (polygamma 1) (polygamma 1) phi0 Hwf)
    as (diff & Hd & Hsd & Hwd & Hd0).
  rewrite Hd. cbn [bind].
  rewrite binop_same_shape by congruence. cbn [bind].
  assert (Hnr : nrows g0 = nrows phi0) by (unfold nrows, batch_shape; now rewrite Hsh).
  assert (Hrl : row_len g0 = row_len phi0) by (unfold row_len; now rewrite Hsh).
  eexists. split; [reflexivity|]. cbn [shape]. split; [exact Hsh|]. split.
  - unfold wf. cbn. now rewrite length_map, length_seq.
  - intros b k Hb Hk.
    rewrite entry_same_shape by (try congruence; lia).
    now rewrite Hd0.
Qed.

(** A result array is determined by its shape and its entries. *)
Lemma vector2_eq (d : ndarray) (x y : R) :
  shape d = [2%nat] -> wf d -> entry d 0 0 = x -> entry d 0 1 = y ->
  d = vector [x; y].
Proof.
  destruct d as [s l]. cbn [shape]. intros -> Hwf.
  unfold wf in Hwf. cbn in Hwf.
  destruct l as [|a [|b [|c l]]]; try discriminate Hwf.
  unfold entry, get. cbn. now intros -> ->.
Qed.

Lemma grad_ones g1 g2 u :
  grad [vector [g1; g2]] u [vector [1; 1]] =
  Ok [vector [g1 * (polygamma 1 1 - polygamma 1 2);
              g2 * (polygamma 1 1 - polygamma 1 2)]].
Proof.
  assert (Hwf : wf (vector [1; 1])) by reflexivity.
  destruct (grad_formula (vector [g1; g2]) [] u (vector [1; 1]) [] Hwf eq_refl)
    as (d0 & Hr & Hsh & Hwd & He).
  rewrite Hr. do 2 f_equal.
  assert (Hs : trailing_sum (vector [1; 1]) 0 = 2).
  { cbv [trailing_sum entry get row_len vector shape data last List.length
         seq map nth Rsum fold_right Nat.mul Nat.add]. lra. }
  apply vector2_eq; auto.
  - rewrite He by (cbv; lia). rewrite Hs. reflexivity.
  - rewrite He by (cbv; lia). rewrite Hs. reflexivity.
Qed.
End Gradient.

(** C8. Whatever the parent, the index and the moments are,
    [compute_message_to_parent] raises [NotImplementedError]; it never
    returns a value. *)
Theorem compute_message_to_parent_unsupported :
  forall (P I : Type) (parent : P) (index : I) (u_self u_alpha : list ndarray),
    DirichletDistribution.compute_message_to_parent parent index u_self u_alpha
    = Raise NotImplementedError /\
    ~ returns (DirichletDistribution.compute_message_to_parent
                 parent index u_self u_alpha).
Proof.
  intros P I parent index u_self u_alpha. split.
  - reflexivity.
  - intros [v Hv]. discriminate Hv.
Qed.

(** ** The store *)

Lemma extends_refl h : extends h h.
Proof. exists []. now rewrite app_nil_r. Qed.

Lemma extends_trans h1 h2 h3 : extends h1 h2 -> extends h2 h3 -> extends h1 h3.
Proof. intros [e1 ->] [e2 ->]. exists (e1 ++ e2). now rewrite app_assoc. Qed.

Lemma extends_deref h h' l :
  extends h h' -> (l < List.length h)%nat -> deref h' l = deref h l.
Proof. intros [ext ->] Hl. unfold deref. now apply app_nth1. Qed.

Lemma deref_new h a : deref (h ++ [a]) (List.length h) = a.
Proof. unfold deref. rewrite app_nth2, Nat.sub_diag by lia. reflexivity. Qed.

Lemma allocates_only_ret {A} (a : A) : allocates_only (ret a).
Proof. intros h. apply extends_refl. Qed.

Lemma allocates_only_throw {A} e : allocates_only (@throw A e).
Proof. intros h. apply extends_refl. Qed.

Lemma allocates_only_lift {A} (r : result A) : allocates_only (lift r).
Proof. intros h. apply extends_refl. Qed.

Lemma allocates_only_load l : allocates_only (load l).
Proof. intros h. apply extends_refl. Qed.

Lemma allocates_only_alloc a : allocates_only (alloc a).
Proof. intros h. now exists [a]. Qed.

Lemma allocates_only_bind {A B} (c : ST A) (k : A -> ST B) :
  allocates_only c -> (forall a, allocates_only (k a)) ->
  allocates_only (bindS c k).
Proof.
  intros Hc Hk h. unfold bindS. specialize (Hc h).
  destruct (c h) as [[a | e] h']; cbn in *; auto.
  eapply extends_trans; [exact Hc | apply Hk].
Qed.

Lemma allocates_only_if {A} (b : bool) (c1 c2 : ST A) :
  allocates_only c1 -> allocates_only c2 ->
  allocates_only (if b then c1 else c2).
Proof. now destruct b. Qed.

Create HintDb store discriminated.
#[local] Hint Resolve allocates_only_ret allocates_only_throw
  allocates_only_lift allocates_only_load allocates_only_alloc : store.
#[local] Hint Extern 2 (allocates_only (bindS _ _)) =>
  apply allocates_only_bind; [|intro] : store.
#[local] Hint Extern 2 (allocates_only (if _ then _ else _)) =>
  apply allocates_only_if : store.

Lemma allocates_only_asanyarray x : allocates_only (np_asanyarray x).
Proof. destruct x; cbn; auto with store. Qed.

Lemma allocates_only_sum l : allocates_only (np_sum l).
Proof. unfold np_sum. auto with store. Qed.

Lemma allocates_only_sum_keepdims l : allocates_only (np_sum_keepdims l).
Proof. unfold np_sum_keepdims. auto with store. Qed.

Lemma allocates_only_fl_sum fsum l : allocates_only (np_fl_sum fsum l).
Proof. unfold np_fl_sum. auto with store. Qed.

Lemma allocates_only_fl_sum_keepdims fsum l :
  allocates_only (np_fl_sum_keepdims fsum l).
Proof. unfold np_fl_sum_keepdims. auto with store. Qed.

Lemma allocates_only_divide la lb : allocates_only (np_divide la lb).
Proof. unfold np_divide. auto 8 with store. Qed.

Lemma allocates_only_map f l : allocates_only (np_map f l).
Proof. unfold np_map. auto with store. Qed.

#[local] Hint Resolve allocates_only_asanyarray allocates_only_sum
  allocates_only_sum_keepdims allocates_only_fl_sum
  allocates_only_fl_sum_keepdims allocates_only_divide
  allocates_only_map : store.

Lemma stateful_cfm_allocates_only log fsum p :
  allocates_only (Stateful.compute_fixed_moments log fsum p).
Proof. unfold Stateful.compute_fixed_moments. auto 20 with store. Qed.

Lemma stateful_cfmf_allocates_only log fsum {M} (mask : M) p :
  allocates_only (Stateful.compute_fixed_moments_and_f log fsum p mask).
Proof. unfold Stateful.compute_fixed_moments_and_f. auto 30 with store. Qed.

Lemma deref_old h a l :
  (l < List.length h)%nat -> deref (h ++ [a]) l = deref h l.
Proof. intros Hl. apply extends_deref; [now exists [a] | exact Hl]. Qed.

Ltac run_store :=
  cbv [np_asanyarray np_sum np_sum_keepdims np_fl_sum np_fl_sum_keepdims
       np_divide np_map bindS load alloc lift ret throw];
  rewrite ?deref_new;
  rewrite ?deref_old by (rewrite ?length_app; cbn [List.length]; lia);
  rewrite ?deref_new.

Lemma stateful_cfm_refines log fsum h l :
  (l < List.length h)%nat ->
  agrees (fun h' u refs => map (deref h') refs = u)
    (DirichletMoments.compute_fixed_moments log fsum (deref h l))
    (Stateful.compute_fixed_moments log fsum (Array l) h).
Proof.
  intros Hl.
  unfold DirichletMoments.compute_fixed_moments,
    Stateful.compute_fixed_moments.
  run_store.
  destruct (ndim (deref h l) <? 1)%nat; [reflexivity|].
  destruct (any_lt (deref h l) 0 || any_gt (deref h l) 1); [reflexivity|].
  run_store.
  destruct (allclose (fl_sum_last fsum (deref h l)) 1); cbn [negb];
    [|reflexivity].
  run_store.
  destruct (binop Rdiv (deref h l) (fl_sum_last_keepdims fsum (deref h l)))
    as [p' | e]; cbn [bind agrees map]; [|reflexivity].
  run_store. reflexivity.
Qed.

Lemma stateful_cfmf_refines log fsum {M} (mask : M) h l :
  (l < List.length h)%nat ->
  agrees (fun h' uf refs =>
            map (deref h') (fst refs) = fst uf /\
            deref h' (snd refs) = snd uf)
    (DirichletDistribution.compute_fixed_moments_and_f log fsum (deref h l)
       mask)
    (Stateful.compute_fixed_moments_and_f log fsum (Array l) mask h).
Proof.
  intros Hl.
  unfold DirichletDistribution.compute_fixed_moments_and_f,
    Stateful.compute_fixed_moments_and_f.
  run_store.
  destruct (ndim (deref h l) <? 1)%nat; [reflexivity|].
  destruct (any_lt (deref h l) 0 || any_gt (deref h l) 1); [reflexivity|].
  run_store.
  destruct (allclose (fl_sum_last fsum (deref h l)) 1); cbn [negb];
    [|reflexivity].
  run_store.
  destruct (binop Rdiv (deref h l) (fl_sum_last_keepdims fsum (deref h l)))
    as [p' | e]; cbn [bind agrees map fst snd]; [|reflexivity].
  run_store. auto.
Qed.

(** The distinction the store makes: dividing in place, which the module
    does not do, overwrites the array of the caller. *)
Remark idivide_overwrites : ~ allocates_only (np_idivide 0%nat 0%nat).
Proof.
  intros H. destruct (H [vector [2]]) as [ext Hext]. revert Hext.
  cbv [np_idivide bindS load lift write deref nth].
  rewrite binop_same_shape by reflexivity.
  cbv [snd update vector shape data List.length size_of fold_right Nat.mul
       Nat.add seq map get nth app].
  intros Hext. injection Hext as Hx _. lra.
Qed.

(** C10. Neither [DirichletMoments.compute_fixed_moments] nor
    [DirichletDistribution.compute_fixed_moments_and_f] writes into an
    array that existed before the call: the store after the call is the
    store before it followed by newly allocated arrays, whether the call
    returns or raises. In particular an array passed as the argument
    holds after the call what it held before. *)
Theorem fixed_moments_leave_input_unchanged :
  forall (log : R -> R) (fsum : list R -> R) (M : Type) (mask : M)
         (h : store),
    (forall p,
       extends h (snd (Stateful.compute_fixed_moments log fsum p h)) /\
       extends h
         (snd (Stateful.compute_fixed_moments_and_f log fsum p mask h))) /\
    (forall l,
       (l < List.length h)%nat ->
       deref (snd (Stateful.compute_fixed_moments log fsum (Array l) h)) l
       = deref h l /\
       deref
         (snd (Stateful.compute_fixed_moments_and_f log fsum (Array l) mask h))
         l
       = deref h l).
Proof.
  intros log fsum M mask h. split.
  - intros p. split.
    + apply stateful_cfm_allocates_only.
    + apply stateful_cfmf_allocates_only.
  - intros l Hl. split; apply extends_deref; auto.
    + apply stateful_cfm_allocates_only.
    + apply stateful_cfmf_allocates_only.
Qed.

Lemma fixed_moments_leave_input_unchanged_witness :
  (0 < List.length [vector [1 / 2; 1 / 2]%R])%nat /\
  deref (snd (Stateful.compute_fixed_moments ln Rsum (Array 0%nat)
                [vector [1 / 2; 1 / 2]])) 0%nat
  = vector [1 / 2; 1 / 2].
Proof.
  assert (Hl : (0 < List.length [vector [1 / 2; 1 / 2]%R])%nat) by (cbn; lia).
  split; [exact Hl|].
  destruct (fixed_moments_leave_input_unchanged ln Rsum bool true
              [vector [1 / 2; 1 / 2]]) as [_ H].
  destruct (H 0%nat Hl) as [H1 _]. exact H1.
Defined.

(** ** Validation *)

(** [compute_gradient] has no check on [phi]: with the non-positive entry
    0 in [phi[0] = [0, 2, 3]] it returns a result, for every trigamma
    function, and raises nothing. *)
Lemma compute_gradient_does_not_validate :
  some_entry (fun x => x <= 0) (vector [0; 2; 3]) /\
  forall (polygamma : nat -> R -> R) (u : list ndarray),
    returns (DirichletDistribution.compute_gradient polygamma
               [vector [1; 1; 1]] u [vector [0; 2; 3]]) /\
    ~ invalid_argument
        (DirichletDistribution.compute_gradient polygamma
           [vector [1; 1; 1]] u [vector [0; 2; 3]]).
Proof.
  split.
  - exists 0. split; [now left | lra].
  - intros polygamma u.
    destruct (grad_formula polygamma (vector [1; 1; 1]) [] u
                (vector [0; 2; 3]) [] eq_refl eq_refl) as (d0 & Hr & _).
    split.
    + exists [d0]. exact Hr.
    + intros [msg Hm]. congruence.
Qed.

(** C9, amended. The operations that validate do so before they compute
    anything, and raise [ValueError] without clamping:
    [DirichletPriorMoments.compute_fixed_moments] on an input with fewer
    than one dimension or a negative entry;
    [DirichletMoments.compute_fixed_moments] and
    [compute_fixed_moments_and_f] on an input with fewer than one
    dimension, an entry outside [0, 1] or a sum along the trailing axis
    that, as NumPy computes it, is not within tolerance of 1;
    [compute_moments_and_cgf] on a natural parameter with a
    non-positive entry. [compute_gradient] does not validate [phi]: for
    every [phi[0]], whatever the sign of its entries, and every [g[0]]
    of the shape of [phi[0]] it returns the trigamma formula,
    [d0[b, k] = g[0][b, k] * (trigamma(phi[0][b, k]) - trigamma(sum_j phi[0][b, j]))]. *)
Theorem validation_at_the_boundary :
  forall (gammaln psi log : R -> R) (polygamma : nat -> R -> R)
         (fsum : list R -> R) (M : Type) (mask : M),
    (forall alpha,
       (ndim alpha < 1)%nat \/ some_entry (fun x => x < 0) alpha ->
       invalid_argument
         (DirichletPriorMoments.compute_fixed_moments gammaln alpha)) /\
    (forall p,
       wf p ->
       (ndim p < 1)%nat \/
       some_entry (fun x => x < 0 \/ 1 < x) p \/
       (exists b, (b < nrows p)%nat /\
                  ~ close_to_one (computed_sum fsum p b)) ->
       invalid_argument (DirichletMoments.compute_fixed_moments log fsum p) /\
       invalid_argument
         (DirichletDistribution.compute_fixed_moments_and_f log fsum p mask))
    /\
    (forall phi0,
       some_entry (fun x => x <= 0) phi0 ->
       invalid_argument
         (DirichletDistribution.compute_moments_and_cgf gammaln psi
            [phi0] mask)) /\
    (forall g0 gs u phi0 phis,
       wf phi0 -> shape g0 = shape phi0 ->
       exists d0,
         DirichletDistribution.compute_gradient polygamma
           (g0 :: gs) u (phi0 :: phis) = Ok [d0] /\
         shape d0 = shape phi0 /\ wf d0 /\
         forall b k, (b < nrows phi0)%nat -> (k < row_len phi0)%nat ->
           entry d0 b k =
           entry g0 b k
           * (polygamma 1%nat (entry phi0 b k)
              - polygamma 1%nat (trailing_sum phi0 b))).
Proof.
  intros gammaln psi log polygamma fsum M mask. split; [|split; [|split]].
  - intros alpha. apply pcfm_rejects.
  - intros p Hwf Hrej. split.
    + now apply cfm_rejects.
    + now apply cfmf_rejects.
  - intros phi0. apply cmc_raises_iff.
  - intros g0 gs u phi0 phis Hwf Hsh. now apply grad_formula.
Qed.

Lemma validation_at_the_boundary_witness :
  wf (vector [0; 2; 3]) /\
  shape (vector [1; 1; 1]) = shape (vector [0; 2; 3]) /\
  some_entry (fun x => x <= 0) (vector [0; 2; 3]) /\
  invalid_argument
    (DirichletDistribution.compute_moments_and_cgf ln ln
       [vector [0; 2; 3]] true) /\
  returns (DirichletDistribution.compute_gradient (fun _ x => / (x * x))
             [vector [1; 1; 1]] [] [vector [0; 2; 3]]).
Proof.
  assert (Hwf : wf (vector [0; 2; 3])) by reflexivity.
  assert (Hnp : some_entry (fun x => x <= 0) (vector [0; 2; 3])).
  { exists 0. split; [now left | lra]. }
  destruct (validation_at_the_boundary ln ln ln (fun _ x => / (x * x))
              Rsum bool true) as (_ & _ & Hcmc & Hgrad).
  split; [exact Hwf|]. split; [reflexivity|]. split; [exact Hnp|].
  split.
  - exact (Hcmc _ Hnp).
  - destruct (Hgrad (vector [1; 1; 1]) [] [] (vector [0; 2; 3]) [] Hwf
                eq_refl) as (d0 & Hr & _).
    exists [d0]. exact Hr.
Defined.

(** * Further properties of the module *)

(** ** from_values and the declared shapes *)

Lemma last_dim_row_len a : (1 <= ndim a)%nat -> last_dim a = Ok (row_len a).
Proof. intros H. unfold last_dim. now rewrite (rev_shape a H). Qed.

Lemma from_values_shape_helper a :
  (1 <= ndim a)%nat ->
  DirichletPriorMoments.from_values a
  = Ok (DirichletPriorMoments.init (row_len a)) /\
  DirichletMoments.from_values a = Ok (DirichletMoments.init (row_len a)).
Proof.
  intros E.
  unfold DirichletPriorMoments.from_values, DirichletMoments.from_values.
  apply ndim_check_false in E. rewrite E.
  apply ndim_check_false in E. rewrite (last_dim_row_len a E). auto.
Qed.

(** X1. [from_values] of either moments class raises [ValueError] exactly
    on an input without dimensions; on any other input it returns the
    descriptor whose number of categories is the length of the trailing
    axis, so that the index [[-1]] into the shape never fails. *)
Theorem from_values_categories :
  forall a : ndarray,
    (invalid_argument (DirichletPriorMoments.from_values a) <->
     (ndim a < 1)%nat) /\
    (invalid_argument (DirichletMoments.from_values a) <->
     (ndim a < 1)%nat) /\
    ((1 <= ndim a)%nat ->
     DirichletPriorMoments.from_values a
     = Ok (DirichletPriorMoments.init (row_len a)) /\
     DirichletMoments.from_values a
     = Ok (DirichletMoments.init (row_len a))).
Proof.
  intros a.
  unfold DirichletPriorMoments.from_values, DirichletMoments.from_values.
  destruct (ndim a <? 1)%nat eqn:E.
  - apply ndim_check_true in E.
    split; [|split]; try (split; [auto | intros _; eexists; reflexivity]).
    intros H. lia.
  - apply ndim_check_false in E. rewrite (last_dim_row_len a E). cbn [bind].
    split; [|split]; try (split; [intros [msg Hm]; discriminate | lia]).
    auto.
Qed.

Lemma from_values_categories_witness :
  (1 <= ndim (mk_array [4; 3]%nat (repeat 1%R 12)))%nat /\
  DirichletMoments.from_values (mk_array [4; 3]%nat (repeat 1%R 12))
  = Ok (DirichletMoments.init 3).
Proof.
  assert (Hn : (1 <= ndim (mk_array [4; 3]%nat (repeat 1%R 12)))%nat)
    by (cbv; lia).
  split; [exact Hn|].
  destruct (from_values_categories (mk_array [4; 3]%nat (repeat 1%R 12)))
    as (_ & _ & H).
  destruct (H Hn) as [_ Hm]. exact Hm.
Defined.

(** X2. The shapes that a descriptor declares are the shapes of the
    moments without their leading axes: whenever [compute_fixed_moments]
    returns, [from_values] returns too, and every moment has the shape of
    the leading axes of the input followed by the declared shape. This
    holds for the prior moments (a vector and a scalar per batch cell)
    and for the moments of the variable (a vector per batch cell). *)
Theorem moments_have_declared_shapes :
  forall (gammaln log : R -> R) (fsum : list R -> R) (a : ndarray),
    (forall u,
       DirichletPriorMoments.compute_fixed_moments gammaln a = Ok u ->
       exists m,
         DirichletPriorMoments.from_values a = Ok m /\
         map shape u
         = map (fun d => batch_shape a ++ d) (DirichletPriorMoments.dims m)) /\
    (forall u,
       DirichletMoments.compute_fixed_moments log fsum a = Ok u ->
       exists m,
         DirichletMoments.from_values a = Ok m /\
         map shape u
         = map (fun d => batch_shape a ++ d) (DirichletMoments.dims m)).
Proof.
  intros gammaln log fsum a. split; intros u Hu.
  - unfold DirichletPriorMoments.compute_fixed_moments in Hu.
    destruct (ndim a <? 1)%nat eqn:E1; [discriminate|].
    destruct (any_lt a 0) eqn:E2; [discriminate|].
    rewrite binop_same_shape in Hu by reflexivity. cbn [bind] in Hu.
    injection Hu as <-.
    apply ndim_check_false in E1.
    destruct (from_values_shape_helper a E1) as [Hp _].
    eexists. split; [exact Hp|].
    cbn. rewrite app_nil_r. f_equal. now apply shape_split.
  - unfold DirichletMoments.compute_fixed_moments in Hu.
    destruct (ndim a <? 1)%nat eqn:E1; [discriminate|].
    destruct (any_lt a 0 || any_gt a 1) eqn:E2; [discriminate|].
    destruct (negb (allclose (fl_sum_last fsum a) 1)) eqn:E3; [discriminate|].
    pose proof (binop_rows Rdiv a (fl_row_sums fsum a)) as Hb.
    change (mk_array (keep_shape (shape a)) (fl_row_sums fsum a))
      with (fl_sum_last_keepdims fsum a) in Hb.
    rewrite Hb in Hu. cbn [bind] in Hu. injection Hu as <-.
    apply ndim_check_false in E1.
    destruct (from_values_shape_helper a E1) as [_ Hm].
    eexists. split; [exact Hm|].
    cbn. f_equal. now apply shape_split.
Qed.

Lemma moments_have_declared_shapes_witness :
  exists u m,
    DirichletMoments.compute_fixed_moments ln Rsum (vector [1 / 2; 1 / 2])
    = Ok u /\
    DirichletMoments.from_values (vector [1 / 2; 1 / 2]) = Ok m /\
    map shape u
    = map (fun d => batch_shape (vector [1 / 2; 1 / 2]) ++ d)
          (DirichletMoments.dims m).
Proof.
  destruct (cfm_accepts ln Rsum (vector [1 / 2; 1 / 2]) eq_refl
              half_half_accepted) as (u0 & Hu & _).
  destruct (moments_have_declared_shapes ln ln Rsum (vector [1 / 2; 1 / 2]))
    as [_ H].
  destruct (H [u0] Hu) as (m & Hm & Hs).
  exists [u0], m. auto.
Defined.

(** ** From the hyperparameter to the moments of the node *)

Lemma all_positive_nonneg a :
  all_entries (fun x => 0 < x) a -> all_entries (fun x => 0 <= x) a.
Proof. intros H x Hin. specialize (H x Hin). simpl in H. lra. Qed.

(** The fixed moments of an accepted hyperparameter, written out. *)
Lemma pcfm_value gammaln alpha :
  (1 <= ndim alpha)%nat -> all_entries (fun x => 0 <= x) alpha ->
  exists z,
    binop Rminus (map_array gammaln (sum_last alpha))
                 (sum_last (map_array gammaln alpha)) = Ok z /\
    DirichletPriorMoments.compute_fixed_moments gammaln alpha = Ok [alpha; z].
Proof.
  intros Hn Hpos. unfold DirichletPriorMoments.compute_fixed_moments.
  apply ndim_check_false in Hn. apply any_lt_false in Hpos.
  rewrite Hn, Hpos.
  rewrite binop_same_shape by reflexivity. cbn [bind]. eauto.
Qed.

(** X3. The log-partition term that [compute_cgf_from_parents] passes
    through from the prior moments is the one that
    [compute_moments_and_cgf] computes for the natural parameter derived
    from the same prior moments: for a hyperparameter with at least one
    dimension and positive entries, both are the same array. *)
Theorem prior_cgf_is_initial_log_partition :
  forall (gammaln psi : R -> R) (M : Type) (mask : M) (alpha : ndarray),
    (1 <= ndim alpha)%nat ->
    all_entries (fun x => 0 < x) alpha ->
    exists z,
      (u_alpha <- DirichletPriorMoments.compute_fixed_moments gammaln alpha ;;
       DirichletDistribution.compute_cgf_from_parents u_alpha) = Ok z /\
      (u_alpha <- DirichletPriorMoments.compute_fixed_moments gammaln alpha ;;
       phi <- DirichletDistribution.compute_phi_from_parents u_alpha mask ;;
       r <- DirichletDistribution.compute_moments_and_cgf gammaln psi phi mask ;;
       Ok (snd r)) = Ok z.
Proof.
  intros gammaln psi M mask alpha Hn Hpos.
  destruct (pcfm_value gammaln alpha Hn (all_positive_nonneg alpha Hpos))
    as (z & Hz & Hu).
  exists z. rewrite Hu. split; [reflexivity|].
  cbn [bind DirichletDistribution.compute_phi_from_parents item nth_error].
  rewrite cmc_guard.
  apply any_le_false in Hpos. rewrite Hpos.
  pose proof (binop_rows Rminus (map_array psi alpha)
                (map psi (row_sums alpha))) as Hb.
  change (mk_array (keep_shape (shape (map_array psi alpha)))
            (map psi (row_sums alpha)))
    with (map_array psi (sum_last_keepdims alpha)) in Hb.
  rewrite Hb. cbn [bind]. rewrite Hz. reflexivity.
Qed.

Lemma prior_cgf_is_initial_log_partition_witness :
  (1 <= ndim (vector [1; 2]%R))%nat /\
  all_entries (fun x => 0 < x) (vector [1; 2]) /\
  exists z,
    (u_alpha <- DirichletPriorMoments.compute_fixed_moments ln (vector [1; 2]) ;;
     DirichletDistribution.compute_cgf_from_parents u_alpha) = Ok z.
Proof.
  assert (Hn : (1 <= ndim (vector [1; 2]%R))%nat) by (cbv; lia).
  assert (Hpos : all_entries (fun x => 0 < x) (vector [1; 2])).
  { intros x [<-|[<-|[]]]; lra. }
  split; [exact Hn|]. split; [exact Hpos|].
  destruct (prior_cgf_is_initial_log_partition ln ln bool true _ Hn Hpos)
    as (z & Hz & _).
  exists z. exact Hz.
Defined.

(** X4. A hyperparameter that the prior moments accept (at least one
    dimension, no negative entry) can still be refused one step later:
    the moments of the natural parameter derived from it raise
    [ValueError] exactly when some entry of the hyperparameter is zero,
    and are returned otherwise. *)
Theorem zero_pseudo_count_fails_downstream :
  forall (gammaln psi : R -> R) (M : Type) (mask : M) (alpha : ndarray),
    (1 <= ndim alpha)%nat ->
    all_entries (fun x => 0 <= x) alpha ->
    returns (DirichletPriorMoments.compute_fixed_moments gammaln alpha) /\
    (invalid_argument
       (u_alpha <- DirichletPriorMoments.compute_fixed_moments gammaln alpha ;;
        phi <- DirichletDistribution.compute_phi_from_parents u_alpha mask ;;
        DirichletDistribution.compute_moments_and_cgf gammaln psi phi mask)
     <-> some_entry (fun x => x = 0) alpha) /\
    (~ some_entry (fun x => x = 0) alpha ->
     returns
       (u_alpha <- DirichletPriorMoments.compute_fixed_moments gammaln alpha ;;
        phi <- DirichletDistribution.compute_phi_from_parents u_alpha mask ;;
        DirichletDistribution.compute_moments_and_cgf gammaln psi phi mask)).
Proof.
  intros gammaln psi M mask alpha Hn Hpos.
  destruct (pcfm_value gammaln alpha Hn Hpos) as (z & _ & Hu).
  rewrite Hu. split; [eexists; reflexivity|].
  cbn [bind DirichletDistribution.compute_phi_from_parents item nth_error].
  assert (Hiff : some_entry (fun x => x <= 0) alpha
                 <-> some_entry (fun x => x = 0) alpha).
  { split; intros [x [Hin Hx]]; exists x; split; auto.
    - specialize (Hpos x Hin). simpl in Hpos. lra.
    - lra. }
  split.
  - rewrite <- Hiff. apply cmc_raises_iff.
  - intros Hnz. apply cmc_returns.
    destruct (any_le alpha 0) eqn:E; auto.
    exfalso. apply Hnz, Hiff. now apply any_le_true.
Qed.

Lemma zero_pseudo_count_fails_downstream_witness :
  (1 <= ndim (vector [0; 3]%R))%nat /\
  all_entries (fun x => 0 <= x) (vector [0; 3]) /\
  returns (DirichletPriorMoments.compute_fixed_moments ln (vector [0; 3])) /\
  invalid_argument
    (u_alpha <- DirichletPriorMoments.compute_fixed_moments ln (vector [0; 3]) ;;
     phi <- DirichletDistribution.compute_phi_from_parents u_alpha true ;;
     DirichletDistribution.compute_moments_and_cgf ln ln phi true).
Proof.
  assert (Hn : (1 <= ndim (vector [0; 3]%R))%nat) by (cbv; lia).
  assert (Hpos : all_entries (fun x => 0 <= x) (vector [0; 3])).
  { intros x [<-|[<-|[]]]; lra. }
  split; [exact Hn|]. split; [exact Hpos|].
  destruct (zero_pseudo_count_fails_downstream ln ln bool true _ Hn Hpos)
    as (Hret & Hiff & _).
  split; [exact Hret|].
  apply Hiff. exists 0. split; [now left | reflexivity].
Defined.

(** ** The two functions for a fixed value *)

Lemma fixed_moments_and_f_agree log fsum {M} (mask : M) p :
  match DirichletMoments.compute_fixed_moments log fsum p with
  | Raise e =>
      DirichletDistribution.compute_fixed_moments_and_f log fsum p mask
      = Raise e
  | Ok u =>
      exists logp,
        u = [logp] /\
        DirichletDistribution.compute_fixed_moments_and_f log fsum p mask
        = Ok ([logp], map_array Ropp (fl_sum_last fsum logp))
  end.
Proof.
  unfold DirichletMoments.compute_fixed_moments,
    DirichletDistribution.compute_fixed_moments_and_f.
  destruct (ndim p <? 1)%nat; [reflexivity|].
  destruct (any_lt p 0 || any_gt p 1); [reflexivity|].
  destruct (negb (allclose (fl_sum_last fsum p) 1)); [reflexivity|].
  destruct (binop Rdiv p (fl_sum_last_keepdims fsum p)) as [p' | e];
    cbn [bind].
  - eexists. split; reflexivity.
  - reflexivity.
Qed.

(** X5. [compute_fixed_moments_and_f] validates and normalises as
    [DirichletMoments.compute_fixed_moments] does: on every input the two
    raise the same exception, or return the same moments, and then [f] is
    minus the sum of the returned log-probabilities along the trailing
    axis. *)
Theorem fixed_moments_and_f_extends_fixed_moments :
  forall (log : R -> R) (fsum : list R -> R) (M : Type) (mask : M)
         (p : ndarray),
    match DirichletMoments.compute_fixed_moments log fsum p with
    | Raise e =>
        DirichletDistribution.compute_fixed_moments_and_f log fsum p mask
        = Raise e
    | Ok u =>
        exists logp,
          u = [logp] /\
          DirichletDistribution.compute_fixed_moments_and_f log fsum p mask
          = Ok ([logp], map_array Ropp (fl_sum_last fsum logp))
    end.
Proof.
  intros log fsum M mask p. apply fixed_moments_and_f_agree.
Qed.

(** Two well-formed arrays of one shape with the same entries are the
    same array. *)
Lemma array_ext a c :
  shape a = shape c -> wf a -> wf c ->
  (forall b k, (b < nrows a)%nat -> (k < row_len a)%nat ->
     entry a b k = entry c b k) ->
  a = c.
Proof.
  intros Hsh Hwa Hwc He.
  assert (Hrl : row_len c = row_len a) by (unfold row_len; now rewrite Hsh).
  destruct a as [sa da], c as [sc dc]. cbn [shape] in Hsh. subst sc.
  f_equal. unfold wf in Hwa, Hwc. cbn [shape data] in Hwa, Hwc.
  apply (nth_ext _ _ 0 0); [congruence|].
  intros i Hi. rewrite Hwa in Hi.
  set (a := mk_array sa da) in *. set (c := mk_array sa dc) in *.
  change sa with (shape a) in Hi. rewrite size_rows in Hi.
  assert (Hk : row_len a <> 0%nat) by (intros E; rewrite E in Hi; lia).
  assert (Hb : (i / row_len a < nrows a)%nat)
    by (apply Nat.Div0.div_lt_upper_bound; lia).
  assert (Hm : (i mod row_len a < row_len a)%nat)
    by (now apply Nat.mod_upper_bound).
  specialize (He _ _ Hb Hm). unfold entry, get in He. rewrite Hrl in He.
  replace (i / row_len a * row_len a + i mod row_len a)%nat with i in He.
  - exact He.
  - rewrite (Nat.div_mod i (row_len a) Hk) at 1. lia.
Qed.

(** X6. On an input whose sums along the trailing axis, as NumPy
    computes them, are exactly 1 the normalisation changes nothing: the
    moments are the logarithms of the entries of the input itself, and
    [f] is minus their sum along the trailing axis. *)
Theorem fixed_moments_of_normalised_input :
  forall (log : R -> R) (fsum : list R -> R) (M : Type) (mask : M)
         (p : ndarray),
    wf p ->
    (1 <= ndim p)%nat ->
    all_entries (fun x => 0 <= x <= 1) p ->
    (forall b, (b < nrows p)%nat -> computed_sum fsum p b = 1) ->
    DirichletMoments.compute_fixed_moments log fsum p
    = Ok [map_array log p] /\
    DirichletDistribution.compute_fixed_moments_and_f log fsum p mask
    = Ok ([map_array log p],
          map_array Ropp (fl_sum_last fsum (map_array log p))).
Proof.
  intros log fsum M mask p Hwf Hn Hr Hs.
  assert (Hacc : accepted fsum p).
  { split; [exact Hn|]. split; [exact Hr|].
    intros b Hb. unfold close_to_one. rewrite (Hs b Hb).
    replace (1 - 1) with 0 by lra. rewrite Rabs_R0, Rabs_R1.
    unfold atol, rtol. lra. }
  destruct (cfm_accepts log fsum p Hwf Hacc) as (u0 & Hu & Hsh & Hwu & He).
  assert (Heq : u0 = map_array log p).
  { apply array_ext; auto using map_array_wf.
    assert (Hnr : nrows u0 = nrows p) by (unfold nrows, batch_shape; now rewrite Hsh).
    assert (Hrl : row_len u0 = row_len p) by (unfold row_len; now rewrite Hsh).
    intros b k Hb Hk. rewrite Hnr in Hb. rewrite Hrl in Hk.
    rewrite He, entry_map_array, (Hs b Hb) by assumption.
    f_equal. lra. }
  subst u0. split; [exact Hu|].
  pose proof (fixed_moments_and_f_agree log fsum mask p) as Hag.
  rewrite Hu in Hag. destruct Hag as (logp & Hl & Hf).
  injection Hl as <-. exact Hf.
Qed.

Lemma fixed_moments_of_normalised_input_witness :
  wf (vector [1 / 2; 1 / 2]) /\
  DirichletMoments.compute_fixed_moments ln Rsum (vector [1 / 2; 1 / 2])
  = Ok [vector [ln (1 / 2); ln (1 / 2)]].
Proof.
  assert (Hwf : wf (vector [1 / 2; 1 / 2])) by reflexivity.
  split; [exact Hwf|].
  destruct half_half_accepted as (Hn & Hr & _).
  assert (Hs : forall b, (b < nrows (vector [1 / 2; 1 / 2]%R))%nat ->
                 computed_sum Rsum (vector [1 / 2; 1 / 2]) b = 1).
  { intros b Hb. assert (b = 0%nat) as -> by (cbv in Hb; lia).
    eval_row. lra. }
  destruct (fixed_moments_of_normalised_input ln Rsum bool true _
              Hwf Hn Hr Hs) as [H _].
  exact H.
Defined.

(** ** The guard of compute_moments_and_cgf on a longer list *)

Lemma same_shapes_true s l :
  Forall (fun a => shape a = s) l -> same_shapes s l = true.
Proof.
  intros H. unfold same_shapes. apply forallb_forall. intros a Hin.
  rewrite Forall_forall in H. specialize (H a Hin).
  destruct (list_eq_dec Nat.eq_dec (shape a) s); [reflexivity | contradiction].
Qed.

Lemma existsb_concat (f : R -> bool) (ls : list (list R)) :
  existsb f (List.concat ls) = existsb (existsb f) ls.
Proof.
  induction ls as [|l ls IH]; cbn; [reflexivity|].
  now rewrite existsb_app, IH.
Qed.

(** The guard on the stacked array, array by array. *)
Lemma any_le_stacked phi0 rest :
  any_le (mk_array (List.length (phi0 :: rest) :: shape phi0)
            (List.concat (map data (phi0 :: rest)))) 0
  = any_le phi0 0 || existsb (fun a => any_le a 0) rest.
Proof.
  unfold any_le. cbn [data map List.concat]. rewrite existsb_app. f_equal.
  rewrite existsb_concat. induction rest as [|a rest IH]; cbn; [reflexivity|].
  now rewrite IH.
Qed.

(** What follows the guard always returns. *)
Lemma cmc_body_returns gammaln psi phi0 :
  returns
    (u0 <- binop Rminus (map_array psi phi0)
                        (map_array psi (sum_last_keepdims phi0)) ;;
     g <- binop Rminus (map_array gammaln (sum_last phi0))
                       (sum_last (map_array gammaln phi0)) ;;
     Ok ([u0], g)).
Proof.
  pose proof (binop_rows Rminus (map_array psi phi0)
                (map psi (row_sums phi0))) as H1.
  unfold sum_last_keepdims, map_array in *. cbn [shape data] in *.
  rewrite H1. cbn [bind].
  rewrite binop_same_shape by reflexivity. cbn [bind].
  eexists. reflexivity.
Qed.

(** The guard on a list of arrays of one shape. *)
Lemma cmc_list_guard :
  forall (gammaln psi : R -> R) (M : Type) (mask : M)
         (phi0 : ndarray) (rest : list ndarray),
    Forall (fun a => shape a = shape phi0) rest ->
    (invalid_argument
       (DirichletDistribution.compute_moments_and_cgf gammaln psi
          (phi0 :: rest) mask)
     <-> exists a, In a (phi0 :: rest) /\ some_entry (fun x => x <= 0) a) /\
    (~ (exists a, In a (phi0 :: rest) /\ some_entry (fun x => x <= 0) a) ->
     returns
       (DirichletDistribution.compute_moments_and_cgf gammaln psi [phi0] mask)
     /\
     DirichletDistribution.compute_moments_and_cgf gammaln psi
       (phi0 :: rest) mask
     = DirichletDistribution.compute_moments_and_cgf gammaln psi [phi0] mask).
Proof.
  intros gammaln psi M mask phi0 rest Hsh.
  assert (Hex :
    (exists a, In a (phi0 :: rest) /\ some_entry (fun x => x <= 0) a)
    <-> any_le phi0 0 || existsb (fun a => any_le a 0) rest = true).
  { rewrite orb_true_iff, existsb_exists. split.
    - intros [a [[<- | Ha] Hx]]; apply any_le_true in Hx; eauto.
    - intros [H | [a [Ha Hx]]]; [exists phi0 | exists a];
        (split; [auto with datatypes | now apply any_le_true]). }
  rewrite Hex.
  unfold DirichletDistribution.compute_moments_and_cgf at 1 3.
  cbn [asanyarray_list]. rewrite (same_shapes_true _ _ Hsh). cbn [bind].
  rewrite (any_le_stacked phi0 rest). cbn [item nth_error bind].
  rewrite cmc_guard.
  pose proof (cmc_body_returns gammaln psi phi0) as [v Hv].
  destruct (any_le phi0 0); cbn [orb].
  - split; [split; [reflexivity | intros _; eexists; reflexivity]|].
    intros H. now destruct H.
  - destruct (existsb (fun a => any_le a 0) rest).
    + split; [split; [reflexivity | intros _; eexists; reflexivity]|].
      intros H. now destruct H.
    + rewrite Hv. split.
      * split; [intros [msg Hm]; discriminate | discriminate].
      * intros _. split; [eexists|]; reflexivity.
Qed.

(** X7. The guard of [compute_moments_and_cgf] converts the whole list
    [phi] to one array, so it reads every array of the list and not only
    [phi[0]]: for a list of arrays of one shape, [ValueError] is raised
    exactly when some entry of some array of the list is less than or
    equal to zero. When the guard passes, the result is computed from
    [phi[0]] alone. *)
Theorem moments_guard_reads_whole_list :
  forall (gammaln psi : R -> R) (M : Type) (mask : M)
         (phi0 : ndarray) (rest : list ndarray),
    Forall (fun a => shape a = shape phi0) rest ->
    (invalid_argument
       (DirichletDistribution.compute_moments_and_cgf gammaln psi
          (phi0 :: rest) mask)
     <-> exists a, In a (phi0 :: rest) /\ some_entry (fun x => x <= 0) a) /\
    (~ (exists a, In a (phi0 :: rest) /\ some_entry (fun x => x <= 0) a) ->
     returns
       (DirichletDistribution.compute_moments_and_cgf gammaln psi [phi0] mask)
     /\
     DirichletDistribution.compute_moments_and_cgf gammaln psi
       (phi0 :: rest) mask
     = DirichletDistribution.compute_moments_and_cgf gammaln psi [phi0] mask).
Proof. exact cmc_list_guard. Qed.

Lemma moments_guard_reads_whole_list_witness :
  Forall (fun a => shape a = shape (vector [1; 2])) [vector [3; 0]] /\
  invalid_argument
    (DirichletDistribution.compute_moments_and_cgf ln ln
       [vector [1; 2]; vector [3; 0]] true).
Proof.
  assert (Hsh : Forall (fun a => shape a = shape (vector [1; 2]))
                  [vector [3; 0]]).
  { constructor; [reflexivity | constructor]. }
  split; [exact Hsh|].
  destruct (moments_guard_reads_whole_list ln ln bool true _ _ Hsh) as [H _].
  apply H. exists (vector [3; 0]). split; [right; now left|].
  exists 0. split; [right; now left | lra].
Defined.

(** ** Every outcome of compute_gradient *)

(** The trigamma factor: an array of the shape of [phi[0]]. *)
Lemma grad_factor polygamma phi0 :
  exists diff,
    binop Rminus (map_array (polygamma 1%nat) phi0)
      (map_array (polygamma 1%nat) (sum_last_keepdims phi0)) = Ok diff /\
    shape diff = shape phi0 /\
    (wf phi0 ->
     wf diff /\
     forall b k, (b < nrows phi0)%nat -> (k < row_len phi0)%nat ->
       entry diff b k
       = polygamma 1%nat (entry phi0 b k)
         - polygamma 1%nat (trailing_sum phi0 b)).
Proof.
  eexists. split.
  - exact (binop_rows Rminus (map_array (polygamma 1%nat) phi0)
             (map (polygamma 1%nat) (row_sums phi0))).
  - split; [reflexivity|]. intros Hwf.
    destruct (binop_row_sums Rminus (polygamma 1%nat) (polygamma 1%nat)
                phi0 Hwf) as (r & Hr & Hsr & Hwr & Her).
    pose proof (binop_rows Rminus (map_array (polygamma 1%nat) phi0)
                  (map (polygamma 1%nat) (row_sums phi0))) as Hb.
    change (mk_array (keep_shape (shape (map_array (polygamma 1%nat) phi0)))
              (map (polygamma 1%nat) (row_sums phi0)))
      with (map_array (polygamma 1%nat) (sum_last_keepdims phi0)) in Hb.
    rewrite Hb in Hr. injection Hr as <-. auto.
Qed.

(** The outcomes of [compute_gradient], by the shapes of its arguments. *)
Lemma grad_outcomes :
  forall (polygamma : nat -> R -> R) (u : list ndarray),
    (forall g,
       DirichletDistribution.compute_gradient polygamma g u []
       = Raise IndexError) /\
    (forall phi0 phis,
       DirichletDistribution.compute_gradient polygamma [] u (phi0 :: phis)
       = Raise IndexError) /\
    (forall g0 gs phi0 phis,
       match broadcast_shapes (shape g0) (shape phi0) with
       | None =>
           invalid_argument
             (DirichletDistribution.compute_gradient polygamma
                (g0 :: gs) u (phi0 :: phis))
       | Some s =>
           exists d0,
             DirichletDistribution.compute_gradient polygamma
               (g0 :: gs) u (phi0 :: phis) = Ok [d0] /\
             shape d0 = s
       end).
Proof.
  intros polygamma u. split; [|split].
  - reflexivity.
  - reflexivity.
  - intros g0 gs phi0 phis.
    unfold DirichletDistribution.compute_gradient.
    cbn [item nth_error bind].
    destruct (grad_factor polygamma phi0) as (diff & Hd & Hsd & _).
    rewrite Hd. cbn [bind]. unfold binop. rewrite Hsd.
    destruct (broadcast_shapes (shape g0) (shape phi0)) as [s|]; cbn [bind].
    + eexists. split; reflexivity.
    + eexists. reflexivity.
Qed.

(** X8. [compute_gradient] can end in three ways only. It raises
    [IndexError] when [phi] is empty, or when [phi] is not and [g] is
    empty. Otherwise it raises [ValueError] when the shape of [g[0]]
    cannot be broadcast against the shape of [phi[0]], and returns a
    one-element list with an array of the broadcast shape when it can.
    The entries of [phi[0]] play no part in which of these happens. *)
Theorem compute_gradient_outcomes :
  forall (polygamma : nat -> R -> R) (u : list ndarray),
    (forall g,
       DirichletDistribution.compute_gradient polygamma g u []
       = Raise IndexError) /\
    (forall phi0 phis,
       DirichletDistribution.compute_gradient polygamma [] u (phi0 :: phis)
       = Raise IndexError) /\
    (forall g0 gs phi0 phis,
       match broadcast_shapes (shape g0) (shape phi0) with
       | None =>
           invalid_argument
             (DirichletDistribution.compute_gradient polygamma
                (g0 :: gs) u (phi0 :: phis))
       | Some s =>
           exists d0,
             DirichletDistribution.compute_gradient polygamma
               (g0 :: gs) u (phi0 :: phis) = Ok [d0] /\
             shape d0 = s
       end).
Proof. exact grad_outcomes. Qed.

Lemma broadcast_scalar_left s : broadcast_shapes [] s = Some s.
Proof.
  unfold broadcast_shapes. cbn [rev broadcast_rev].
  destruct (rev s) eqn:E; cbn [option_map]; rewrite <- E;
    now rewrite rev_involutive.
Qed.

(** A 0-dimensional gradient against any natural parameter. *)
Lemma grad_scalar :
  forall (polygamma : nat -> R -> R) (c : R) (gs u : list ndarray)
         (phi0 : ndarray) (phis : list ndarray),
    wf phi0 ->
    exists d0,
      DirichletDistribution.compute_gradient polygamma
        (scalar c :: gs) u (phi0 :: phis) = Ok [d0] /\
      shape d0 = shape phi0 /\ wf d0 /\
      forall b k, (b < nrows phi0)%nat -> (k < row_len phi0)%nat ->
        entry d0 b k
        = c * (polygamma 1%nat (entry phi0 b k)
               - polygamma 1%nat (trailing_sum phi0 b)).
Proof.
  intros polygamma c gs u phi0 phis Hwf.
  unfold DirichletDistribution.compute_gradient.
  cbn [item nth_error bind].
  destruct (grad_factor polygamma phi0) as (diff & Hd & Hsd & Hrest).
  destruct (Hrest Hwf) as [Hwd He].
  rewrite Hd. cbn [bind]. unfold binop. cbn [scalar shape].
  rewrite broadcast_scalar_left, Hsd. cbn [bind].
  eexists. split; [reflexivity|]. cbn [shape]. split; [reflexivity|]. split.
  - unfold wf. cbn. now rewrite length_map, length_seq.
  - intros b k Hb Hk. destruct (entry_index phi0 b k Hb Hk) as [Hlt _].
    unfold entry at 1, get at 1, row_len at 1. cbn [shape data].
    fold (row_len phi0). rewrite nth_map_seq by assumption.
    unfold broadcast_get. cbn [shape rev source_index get data nth].
    rewrite Hsd.
    rewrite source_index_same by (rewrite size_of_rev; lia).
    rewrite Nat.mul_1_r. f_equal.
    rewrite <- He by assumption. unfold entry.
    assert (Hrl : row_len diff = row_len phi0) by (unfold row_len; now rewrite Hsd).
    now rewrite Hrl.
Qed.

(** X9. A 0-dimensional [g[0]] is broadcast over the whole natural
    parameter: the result has the shape of [phi[0]], and each of its
    entries is the one value of [g[0]] times the trigamma difference at
    that entry. *)
Theorem compute_gradient_scalar :
  forall (polygamma : nat -> R -> R) (c : R) (gs u : list ndarray)
         (phi0 : ndarray) (phis : list ndarray),
    wf phi0 ->
    exists d0,
      DirichletDistribution.compute_gradient polygamma
        (scalar c :: gs) u (phi0 :: phis) = Ok [d0] /\
      shape d0 = shape phi0 /\ wf d0 /\
      forall b k, (b < nrows phi0)%nat -> (k < row_len phi0)%nat ->
        entry d0 b k
        = c * (polygamma 1%nat (entry phi0 b k)
               - polygamma 1%nat (trailing_sum phi0 b)).
Proof. exact grad_scalar. Qed.

Lemma compute_gradient_scalar_witness :
  wf (vector [1; 1]) /\
  returns (DirichletDistribution.compute_gradient (fun _ x => / (x * x))
             [scalar 5] [] [vector [1; 1]]).
Proof.
  assert (Hwf : wf (vector [1; 1])) by reflexivity.
  split; [exact Hwf|].
  destruct (compute_gradient_scalar (fun _ x => / (x * x)) 5 [] []
              (vector [1; 1]) [] Hwf) as (d0 & Hr & _).
  exists [d0]. exact Hr.
Defined.

(** ** Parent moments of the wrong length *)

(** X10. The two functions that read the parent moments index into the
    list they are given: [compute_phi_from_parents] raises [IndexError]
    exactly on the empty list and [compute_cgf_from_parents] exactly on a
    list of fewer than two moments. Neither can fail on what
    [DirichletPriorMoments.compute_fixed_moments] returns, whereas the
    one-element moments of [DirichletMoments.compute_fixed_moments] make
    [compute_cgf_from_parents] raise. *)
Theorem parent_moments_indexing :
  forall (gammaln log : R -> R) (fsum : list R -> R) (M : Type) (mask : M),
    (forall u,
       DirichletDistribution.compute_phi_from_parents u mask = Raise IndexError
       <-> u = []) /\
    (forall u,
       DirichletDistribution.compute_cgf_from_parents u = Raise IndexError
       <-> (List.length u < 2)%nat) /\
    (forall alpha u,
       DirichletPriorMoments.compute_fixed_moments gammaln alpha = Ok u ->
       returns (DirichletDistribution.compute_phi_from_parents u mask) /\
       returns (DirichletDistribution.compute_cgf_from_parents u)) /\
    (forall p u,
       DirichletMoments.compute_fixed_moments log fsum p = Ok u ->
       DirichletDistribution.compute_cgf_from_parents u = Raise IndexError).
Proof.
  intros gammaln log fsum M mask. split; [|split; [|split]].
  - intros [|u0 rest]; cbn; split; auto; discriminate.
  - intros [|u0 [|u1 rest]]; cbn; split; auto; try discriminate; lia.
  - intros alpha u Hu.
    unfold DirichletPriorMoments.compute_fixed_moments in Hu.
    destruct (ndim alpha <? 1)%nat; [discriminate|].
    destruct (any_lt alpha 0); [discriminate|].
    destruct (binop Rminus _ _) as [z|e]; cbn [bind] in Hu; [|discriminate].
    injection Hu as <-. split; eexists; reflexivity.
  - intros p u Hu.
    pose proof (fixed_moments_and_f_agree log fsum mask p) as Hag.
    rewrite Hu in Hag. destruct Hag as (logp & -> & _). reflexivity.
Qed.

Lemma parent_moments_indexing_witness :
  exists u,
    DirichletMoments.compute_fixed_moments ln Rsum (vector [1 / 2; 1 / 2])
    = Ok u /\
    DirichletDistribution.compute_cgf_from_parents u = Raise IndexError.
Proof.
  destruct (cfm_accepts ln Rsum (vector [1 / 2; 1 / 2]) eq_refl
              half_half_accepted) as (u0 & Hu & _).
  destruct (parent_moments_indexing ln ln Rsum bool true) as (_ & _ & _ & H).
  exists [u0]. split; [exact Hu | exact (H _ _ Hu)].
Defined.

(** ** Empty axes *)

Lemma empty_data a :
  wf a -> size_of (shape a) = 0%nat -> data a = [].
Proof.
  unfold wf. intros Hwf Hz. rewrite Hz in Hwf.
  now destruct (data a).
Qed.

Lemma trailing_sum_empty a b : row_len a = 0%nat -> trailing_sum a b = 0.
Proof. intros Hk. unfold trailing_sum. now rewrite Hk. Qed.

Lemma computed_sum_empty fsum a b :
  row_len a = 0%nat -> computed_sum fsum a b = 0.
Proof. intros Hk. unfold computed_sum. now rewrite Hk. Qed.

Lemma zero_not_close_to_one : ~ close_to_one 0.
Proof.
  unfold close_to_one, atol, rtol. rewrite Rabs_R1.
  replace (0 - 1) with (- (1)) by lra. rewrite Rabs_Ropp, Rabs_R1. lra.
Qed.

(** X11. An input whose trailing axis is empty has the sum 0 in every
    batch cell, whatever the summation of non-empty rows is. The moments
    of the variable therefore reject it, in both functions, as soon as
    there is one batch cell; the prior moments accept it and return
    [gammaln(0) - 0] in every batch cell. *)
Theorem empty_trailing_axis :
  forall (gammaln log : R -> R) (fsum : list R -> R) (M : Type) (mask : M)
         (a : ndarray),
    wf a ->
    (1 <= ndim a)%nat ->
    row_len a = 0%nat ->
    ((0 < nrows a)%nat ->
     invalid_argument (DirichletMoments.compute_fixed_moments log fsum a) /\
     invalid_argument
       (DirichletDistribution.compute_fixed_moments_and_f log fsum a mask))
    /\
    (exists z,
       DirichletPriorMoments.compute_fixed_moments gammaln a = Ok [a; z] /\
       shape z = batch_shape a /\
       forall b, (b < nrows a)%nat -> get z b = gammaln 0 - 0).
Proof.
  intros gammaln log fsum M mask a Hwf Hn Hk.
  assert (Hd : data a = []).
  { apply empty_data; auto. rewrite size_rows, Hk. lia. }
  split.
  - intros Hb.
    assert (Hrej : rejected fsum a).
    { right. right. exists 0%nat. split; [exact Hb|].
      rewrite computed_sum_empty by assumption. apply zero_not_close_to_one. }
    split; [now apply cfm_rejects | now apply cfmf_rejects].
  - assert (Hpos : all_entries (fun x => 0 <= x) a).
    { intros x Hin. rewrite Hd in Hin. destruct Hin. }
    destruct (pcfm_accepts gammaln a Hn Hpos) as (z & Hz & Hsz & Hrest).
    destruct (Hrest Hwf) as [_ Hz0].
    exists z. split; [exact Hz|]. split; [exact Hsz|].
    intros b Hb. rewrite (Hz0 b Hb), Hk, trailing_sum_empty by assumption.
    reflexivity.
Qed.

Lemma empty_trailing_axis_witness :
  wf (vector []) /\
  (1 <= ndim (vector []))%nat /\
  row_len (vector []) = 0%nat /\
  invalid_argument
    (DirichletMoments.compute_fixed_moments ln Rsum (vector [])) /\
  returns (DirichletPriorMoments.compute_fixed_moments ln (vector [])).
Proof.
  assert (Hwf : wf (vector [])) by reflexivity.
  assert (Hn : (1 <= ndim (vector []))%nat) by (cbv; lia).
  assert (Hk : row_len (vector []) = 0%nat) by reflexivity.
  split; [exact Hwf|]. split; [exact Hn|]. split; [exact Hk|].
  destruct (empty_trailing_axis ln ln Rsum bool true _ Hwf Hn Hk)
    as [Hrej (z & Hz & _)].
  split.
  - apply Hrej. cbv. lia.
  - eexists. exact Hz.
Defined.

(** X12. An input without any batch cell (a leading axis of length 0)
    has no entry and no sum to check: both functions for a fixed value
    accept it and return the empty array of the same shape. *)
Theorem no_batch_cells :
  forall (log : R -> R) (fsum : list R -> R) (M : Type) (mask : M)
         (p : ndarray),
    wf p ->
    (1 <= ndim p)%nat ->
    nrows p = 0%nat ->
    DirichletMoments.compute_fixed_moments log fsum p
    = Ok [mk_array (shape p) []] /\
    DirichletDistribution.compute_fixed_moments_and_f log fsum p mask
    = Ok ([mk_array (shape p) []], mk_array (batch_shape p) []).
Proof.
  intros log fsum M mask p Hwf Hn Hz.
  assert (Hsz : size_of (shape p) = 0%nat) by (rewrite size_rows, Hz; lia).
  assert (Hd : data p = []) by now apply empty_data.
  assert (Hcfm :
    DirichletMoments.compute_fixed_moments log fsum p
    = Ok [mk_array (shape p) []]).
  { unfold DirichletMoments.compute_fixed_moments.
    apply ndim_check_false in Hn. rewrite Hn.
    unfold any_lt, any_gt, allclose, fl_sum_last, fl_row_sums.
    rewrite Hd, Hz. cbn [existsb orb data seq map forallb negb].
    pose proof (binop_rows Rdiv p (fl_row_sums fsum p)) as Hb.
    change (mk_array (keep_shape (shape p)) (fl_row_sums fsum p))
      with (fl_sum_last_keepdims fsum p) in Hb.
    rewrite Hb, Hsz. reflexivity. }
  split; [exact Hcfm|].
  pose proof (fixed_moments_and_f_agree log fsum mask p) as Hag.
  rewrite Hcfm in Hag. destruct Hag as (logp & Hl & Hf).
  injection Hl as <-. rewrite Hf. do 2 f_equal.
  unfold map_array, fl_sum_last, fl_row_sums, nrows, batch_shape.
  cbn [shape data].
  fold (batch_shape p). fold (nrows p). rewrite Hz. reflexivity.
Qed.

Lemma no_batch_cells_witness :
  wf (mk_array [0; 3]%nat []) /\
  (1 <= ndim (mk_array [0; 3]%nat []))%nat /\
  nrows (mk_array [0; 3]%nat []) = 0%nat /\
  DirichletMoments.compute_fixed_moments ln Rsum (mk_array [0; 3]%nat [])
  = Ok [mk_array [0; 3]%nat []].
Proof.
  assert (Hwf : wf (mk_array [0; 3]%nat [])) by reflexivity.
  assert (Hn : (1 <= ndim (mk_array [0; 3]%nat []))%nat) by (cbv; lia).
  assert (Hz : nrows (mk_array [0; 3]%nat []) = 0%nat) by reflexivity.
  split; [exact Hwf|]. split; [exact Hn|]. split; [exact Hz|].
  destruct (no_batch_cells ln Rsum bool true _ Hwf Hn Hz) as [H _]. exact H.
Defined.

(** ** Which arrays are returned *)

Lemma allocates_only_subtract la lb : allocates_only (np_subtract la lb).
Proof. unfold np_subtract. auto 8 with store. Qed.

#[local] Hint Resolve allocates_only_subtract : store.

Lemma stateful_prior_allocates_only gammaln alpha :
  allocates_only (StatefulPrior.compute_fixed_moments gammaln alpha).
Proof. unfold StatefulPrior.compute_fixed_moments. auto 30 with store. Qed.

Ltac run_store_prior :=
  cbv [np_asanyarray np_sum np_sum_keepdims np_divide np_subtract np_map
       bindS load alloc lift ret throw];
  rewrite ?deref_new;
  rewrite ?deref_old by (rewrite ?length_app; cbn [List.length]; lia);
  rewrite ?deref_new.

(** The store version of the prior moments computes what the function on
    values computes, and its first reference is the argument. *)
Lemma stateful_prior_refines gammaln h l :
  (l < List.length h)%nat ->
  agrees (fun h' u refs =>
            map (deref h') refs = u /\
            exists z, refs = [l; z] /\ fresh h z /\ (z < List.length h')%nat)
    (DirichletPriorMoments.compute_fixed_moments gammaln (deref h l))
    (StatefulPrior.compute_fixed_moments gammaln (Array l) h).
Proof.
  intros Hl.
  unfold DirichletPriorMoments.compute_fixed_moments,
    StatefulPrior.compute_fixed_moments.
  run_store_prior.
  destruct (ndim (deref h l) <? 1)%nat; [reflexivity|].
  destruct (any_lt (deref h l) 0); [reflexivity|].
  run_store_prior.
  repeat rewrite deref_old by (rewrite ?length_app; cbn [List.length]; lia).
  destruct (binop Rminus (map_array gammaln (sum_last (deref h l)))
              (sum_last (map_array gammaln (deref h l))))
    as [z | e]; cbv beta iota delta [bind agrees map]; [|reflexivity].
  rewrite ?deref_new.
  rewrite ?deref_old by (rewrite ?length_app; cbn [List.length]; lia).
  split; [reflexivity|].
  eexists. split; [reflexivity|]. unfold fresh.
  rewrite ?length_app. cbn [List.length]. lia.
Qed.

(** The one array that [Stateful.compute_fixed_moments] returns did not
    exist before the call. *)
Lemma stateful_cfm_fresh log fsum h l :
  (l < List.length h)%nat ->
  match Stateful.compute_fixed_moments log fsum (Array l) h with
  | (Ok refs, h') =>
      exists r, refs = [r] /\ fresh h r /\ (r < List.length h')%nat
  | (Raise _, _) => True
  end.
Proof.
  intros Hl. unfold Stateful.compute_fixed_moments.
  run_store.
  destruct (ndim (deref h l) <? 1)%nat; [exact I|].
  destruct (any_lt (deref h l) 0 || any_gt (deref h l) 1); [exact I|].
  run_store.
  destruct (allclose (fl_sum_last fsum (deref h l)) 1); cbn [negb];
    [|exact I].
  run_store.
  destruct (binop Rdiv (deref h l) (fl_sum_last_keepdims fsum (deref h l)))
    as [p' | e]; [|exact I].
  eexists. split; [reflexivity|]. unfold fresh.
  rewrite ?length_app. cbn [List.length]. lia.
Qed.

(** X13. The first prior moment is the array of the caller itself:
    when [DirichletPriorMoments.compute_fixed_moments] is given an array
    object and returns, the list it returns holds that same object,
    unchanged, followed by a newly allocated [z]; nothing that existed
    was written to. [DirichletMoments.compute_fixed_moments] in the same
    situation returns one newly allocated array, never the argument. *)
Theorem which_arrays_are_returned :
  forall (gammaln log : R -> R) (fsum : list R -> R) (h : store) (l : ref),
    (l < List.length h)%nat ->
    (forall refs h',
       StatefulPrior.compute_fixed_moments gammaln (Array l) h = (Ok refs, h') ->
       extends h h' /\
       DirichletPriorMoments.compute_fixed_moments gammaln (deref h l)
       = Ok (map (deref h') refs) /\
       exists z, refs = [l; z] /\ fresh h z /\ (z < List.length h')%nat) /\
    (forall refs h',
       Stateful.compute_fixed_moments log fsum (Array l) h = (Ok refs, h') ->
       extends h h' /\
       DirichletMoments.compute_fixed_moments log fsum (deref h l)
       = Ok (map (deref h') refs) /\
       exists r, refs = [r] /\ r <> l /\ fresh h r /\ (r < List.length h')%nat).
Proof.
  intros gammaln log fsum h l Hl. split; intros refs h' Hrun.
  - pose proof (stateful_prior_allocates_only gammaln (Array l) h) as Hext.
    pose proof (stateful_prior_refines gammaln h l Hl) as Hag.
    rewrite Hrun in Hext, Hag. cbn [snd] in Hext. split; [exact Hext|].
    unfold agrees in Hag.
    destruct (DirichletPriorMoments.compute_fixed_moments gammaln (deref h l))
      as [u | e]; [|contradiction].
    destruct Hag as [<- Hz]. auto.
  - pose proof (stateful_cfm_allocates_only log fsum (Array l) h) as Hext.
    pose proof (stateful_cfm_refines log fsum h l Hl) as Hag.
    pose proof (stateful_cfm_fresh log fsum h l Hl) as Hfr.
    rewrite Hrun in Hext, Hag, Hfr. cbn [snd] in Hext. split; [exact Hext|].
    unfold agrees in Hag.
    destruct (DirichletMoments.compute_fixed_moments log fsum (deref h l))
      as [u | e]; [|contradiction].
    split; [now rewrite Hag|].
    destruct Hfr as (r & -> & Hf & Hlt). exists r.
    repeat split; auto. unfold fresh in Hf. lia.
Qed.

Lemma which_arrays_are_returned_witness :
  (0 < List.length [vector [1; 2]%R])%nat /\
  exists z h',
    StatefulPrior.compute_fixed_moments ln (Array 0%nat) [vector [1; 2]]
    = (Ok [0%nat; z], h') /\
    deref h' 0%nat = vector [1; 2].
Proof.
  assert (Hl : (0 < List.length [vector [1; 2]%R])%nat) by (cbn; lia).
  split; [exact Hl|].
  pose proof (stateful_prior_refines ln [vector [1; 2]] 0%nat Hl) as Hag.
  destruct (StatefulPrior.compute_fixed_moments ln (Array 0%nat)
              [vector [1; 2]]) as [[refs | e] h'] eqn:Hrun.
  - destruct (which_arrays_are_returned ln ln Rsum [vector [1; 2]] 0%nat Hl)
      as [H _].
    destruct (H refs h' Hrun) as (Hext & _ & z & -> & _).
    exists z, h'. split; [reflexivity|].
    now apply (extends_deref [vector [1; 2]] h' 0%nat Hext).
  - exfalso. unfold agrees in Hag.
    assert (Hpos : all_entries (fun x => 0 <= x) (vector [1; 2])).
    { intros x [<-|[<-|[]]]; lra. }
    destruct (pcfm_accepts ln (vector [1; 2]) ltac:(cbv; lia) Hpos)
      as (z & Hz & _).
    change (deref [vector [1; 2]] 0%nat) with (vector [1; 2]) in Hag.
    rewrite Hz in Hag. exact Hag.
Defined.

(** X14. [DirichletPriorMoments.compute_fixed_moments] writes to no
    array that existed before the call, whether it returns or raises and
    whatever it is given: the store after the call is the store before it
    followed by newly allocated arrays. *)
Theorem prior_moments_leave_store_unchanged :
  forall (gammaln : R -> R) (alpha : array_like) (h : store),
    extends h (snd (StatefulPrior.compute_fixed_moments gammaln alpha h)) /\
    forall l, (l < List.length h)%nat ->
      deref (snd (StatefulPrior.compute_fixed_moments gammaln alpha h)) l
      = deref h l.
Proof.
  intros gammaln alpha h.
  pose proof (stateful_prior_allocates_only gammaln alpha h) as Hext.
  split; [exact Hext|].
  intros l Hl. now apply extends_deref.
Qed.

Lemma prior_moments_leave_store_unchanged_witness :
  (0 < List.length [vector [1; 2]%R])%nat /\
  deref (snd (StatefulPrior.compute_fixed_moments ln (Array 0%nat)
                [vector [1; 2]])) 0%nat
  = vector [1; 2].
Proof.
  assert (Hl : (0 < List.length [vector [1; 2]%R])%nat) by (cbn; lia).
  split; [exact Hl|].
  destruct (prior_moments_leave_store_unchanged ln (Array 0%nat)
              [vector [1; 2]]) as [_ H].
  exact (H 0%nat Hl).
Defined.

(** ** compute_moments_and_cgf and the store *)

Lemma allocates_only_loads ls : allocates_only (loads ls).
Proof. intros h. apply extends_refl. Qed.

#[local] Hint Resolve allocates_only_loads : store.

Lemma allocates_only_asanyarray_list phi :
  allocates_only (np_asanyarray_list phi).
Proof. unfold np_asanyarray_list. auto 8 with store. Qed.

#[local] Hint Resolve allocates_only_asanyarray_list : store.

Lemma stateful_cmc_allocates_only gammaln psi {M} (mask : M) phi :
  allocates_only
    (StatefulDistribution.compute_moments_and_cgf gammaln psi phi mask).
Proof.
  unfold StatefulDistribution.compute_moments_and_cgf. auto 40 with store.
Qed.

(** Reading a reference in a store that has grown since. *)
Ltac simpl_deref :=
  repeat match goal with
  | |- context [deref (?s ++ [?x]) (List.length ?s)] =>
      rewrite (deref_new s x)
  | |- context [deref (?s ++ [?x]) ?l] =>
      rewrite (deref_old s x l)
        by (rewrite ?length_app; cbn [List.length]; lia)
  end.

Ltac run_store_cmc :=
  cbv [np_asanyarray_list loads np_sum np_sum_keepdims np_subtract np_map
       bindS load alloc lift ret throw];
  simpl_deref.

(** The store version computes what the function on values computes on
    the arrays that the references of [phi] hold. *)
Lemma stateful_cmc_refines gammaln psi {M} (mask : M) h phi :
  Forall (fun l => (l < List.length h)%nat) phi ->
  agrees (fun h' ug refs =>
            map (deref h') (fst refs) = fst ug /\
            deref h' (snd refs) = snd ug)
    (DirichletDistribution.compute_moments_and_cgf gammaln psi
       (map (deref h) phi) mask)
    (StatefulDistribution.compute_moments_and_cgf gammaln psi phi mask h).
Proof.
  intros Hphi.
  unfold DirichletDistribution.compute_moments_and_cgf,
    StatefulDistribution.compute_moments_and_cgf.
  run_store_cmc.
  destruct (asanyarray_list (map (deref h) phi)) as [a | e];
    cbv beta iota delta [bind agrees]; [|reflexivity].
  run_store_cmc.
  destruct (any_le a 0); [reflexivity|].
  destruct phi as [|l rest]; [reflexivity|].
  apply Forall_inv in Hphi.
  cbv beta iota delta [item nth_error map bind].
  run_store_cmc.
  destruct (binop Rminus (map_array psi (deref h l))
              (map_array psi (sum_last_keepdims (deref h l))))
    as [u0 | e]; cbv beta iota delta [bind agrees]; [|reflexivity].
  run_store_cmc.
  destruct (binop Rminus (map_array gammaln (sum_last (deref h l)))
              (sum_last (map_array gammaln (deref h l))))
    as [g | e]; cbv beta iota delta [bind agrees map fst snd];
    [|reflexivity].
  run_store_cmc. auto.
Qed.

Lemma agrees_invalid {A B} (same : store -> A -> B -> Prop)
    (pure : result A) (run : result B * store) :
  agrees same pure run ->
  (invalid_argument (fst run) <-> invalid_argument pure).
Proof.
  unfold agrees. destruct pure as [a | e], run as [[b | e'] h']; cbn [fst].
  - intros _. split; intros [msg Hm]; discriminate.
  - contradiction.
  - contradiction.
  - intros <-. split; intros [msg Hm]; exists msg; congruence.
Qed.

(** C2. [compute_moments_and_cgf] fails with an invalid-argument error
    exactly when some entry of [phi[0]] is less than or equal to zero,
    [phi] being the one-element list of the data model; it does so for
    [phi[0] = [0, 2, 3]], and for the list of numbers [phi = [0, 2, 3]]
    as well. On a longer list of arrays of one shape the guard reads
    every array of the list. On the store of array objects, the call
    fails under the same condition; when it fails it returns no
    reference, and, whether it fails or returns, every array that existed
    before the call holds afterwards what it held before. *)
Theorem compute_moments_and_cgf_raises_iff :
  forall (gammaln psi : R -> R) (M : Type) (mask : M),
    (forall phi0,
       invalid_argument
         (DirichletDistribution.compute_moments_and_cgf gammaln psi [phi0] mask)
       <-> some_entry (fun x => x <= 0) phi0) /\
    invalid_argument
      (DirichletDistribution.compute_moments_and_cgf gammaln psi
         [vector [0; 2; 3]] mask) /\
    invalid_argument
      (DirichletDistribution.compute_moments_and_cgf gammaln psi
         [scalar 0; scalar 2; scalar 3] mask) /\
    (forall phi0 rest,
       Forall (fun a => shape a = shape phi0) rest ->
       (invalid_argument
          (DirichletDistribution.compute_moments_and_cgf gammaln psi
             (phi0 :: rest) mask)
        <-> exists a, In a (phi0 :: rest) /\ some_entry (fun x => x <= 0) a))
    /\
    (forall (h : store) (phi : list ref),
       extends h
         (snd (StatefulDistribution.compute_moments_and_cgf gammaln psi
                 phi mask h)) /\
       forall l, (l < List.length h)%nat ->
         deref
           (snd (StatefulDistribution.compute_moments_and_cgf gammaln psi
                   phi mask h)) l
         = deref h l) /\
    (forall (h : store) (l : ref),
       (l < List.length h)%nat ->
       (invalid_argument
          (fst (StatefulDistribution.compute_moments_and_cgf gammaln psi
                  [l] mask h))
        <-> some_entry (fun x => x <= 0) (deref h l)) /\
       (some_entry (fun x => x <= 0) (deref h l) ->
        exists msg h',
          StatefulDistribution.compute_moments_and_cgf gammaln psi [l] mask h
          = (Raise (ValueError msg), h') /\
          forall l', (l' < List.length h)%nat -> deref h' l' = deref h l')).
Proof.
  intros gammaln psi M mask.
  assert (Hstore : forall (h : store) (l : ref),
            (l < List.length h)%nat ->
            (invalid_argument
               (fst (StatefulDistribution.compute_moments_and_cgf gammaln psi
                       [l] mask h))
             <-> some_entry (fun x => x <= 0) (deref h l))).
  { intros h l Hl.
    rewrite <- (cmc_raises_iff gammaln psi mask (deref h l)).
    assert (Hphi : Forall (fun l => (l < List.length h)%nat) [l])
      by (constructor; [exact Hl | constructor]).
    exact (agrees_invalid _ _ _
             (stateful_cmc_refines gammaln psi mask h [l] Hphi)). }
  split; [|split; [|split; [|split; [|split]]]].
  - intros phi0. apply cmc_raises_iff.
  - apply cmc_raises_iff. exists 0. split; [now left | lra].
  - unfold DirichletDistribution.compute_moments_and_cgf.
    cbn [asanyarray_list same_shapes forallb scalar shape bind].
    destruct (list_eq_dec Nat.eq_dec [] []) as [_ | Hne]; [|now destruct Hne].
    cbn [andb bind].
    assert (Hz : any_le (mk_array [3%nat] [0; 2; 3]) 0 = true).
    { apply any_le_true. exists 0. split; [now left | lra]. }
    cbn [List.length map data List.concat app scalar].
    rewrite Hz. eexists. reflexivity.
  - intros phi0 rest Hsh.
    exact (proj1 (cmc_list_guard gammaln psi M mask phi0 rest Hsh)).
  - intros h phi.
    pose proof (stateful_cmc_allocates_only gammaln psi mask phi h) as Hext.
    split; [exact Hext|]. intros l Hl. now apply extends_deref.
  - intros h l Hl. split; [now apply Hstore|].
    intros Hnp. apply (Hstore h l Hl) in Hnp.
    pose proof (stateful_cmc_allocates_only gammaln psi mask [l] h) as Hext.
    destruct (StatefulDistribution.compute_moments_and_cgf gammaln psi
                [l] mask h) as [r h'].
    cbn [fst snd] in *. destruct Hnp as [msg ->].
    exists msg, h'. split; [reflexivity|].
    intros l' Hl'. now apply extends_deref.
Qed.

Lemma compute_moments_and_cgf_raises_iff_witness :
  (0 < List.length [vector [0; 2; 3]%R])%nat /\
  Forall (fun a => shape a = shape (vector [1; 2])) [vector [3; 0]] /\
  invalid_argument
    (DirichletDistribution.compute_moments_and_cgf ln ln
       [vector [1; 2]; vector [3; 0]] true) /\
  exists msg h',
    StatefulDistribution.compute_moments_and_cgf ln ln [0%nat] true
      [vector [0; 2; 3]]
    = (Raise (ValueError msg), h') /\
    deref h' 0%nat = vector [0; 2; 3].
Proof.
  assert (Hl : (0 < List.length [vector [0; 2; 3]%R])%nat) by (cbn; lia).
  assert (Hsh : Forall (fun a => shape a = shape (vector [1; 2]))
                  [vector [3; 0]]).
  { constructor; [reflexivity | constructor]. }
  split; [exact Hl|]. split; [exact Hsh|].
  destruct (compute_moments_and_cgf_raises_iff ln ln bool true)
    as (_ & _ & _ & Hlist & _ & H).
  split.
  { apply (Hlist _ _ Hsh). exists (vector [3; 0]). split; [right; now left|].
    exists 0. split; [right; now left | lra]. }
  destruct (H [vector [0; 2; 3]] 0%nat Hl) as [_ Hfail].
  destruct Hfail as (msg & h' & Hrun & Hsame).
  - exists 0. split; [now left | lra].
  - exists msg, h'. split; [exact Hrun|]. exact (Hsame 0%nat Hl).
Defined.

(** ** compute_gradient under broadcasting *)

(** [g[0]] of three entries cannot be broadcast against [phi[0]] of two:
    the call raises [ValueError] and returns nothing, for every trigamma
    function; and with an empty [g] it raises [IndexError]. *)
Lemma compute_gradient_needs_compatible_shapes :
  (forall (polygamma : nat -> R -> R) (u : list ndarray),
     invalid_argument
       (DirichletDistribution.compute_gradient polygamma
          [vector [1; 1; 1]] u [vector [1; 1]]) /\
     ~ returns
         (DirichletDistribution.compute_gradient polygamma
            [vector [1; 1; 1]] u [vector [1; 1]])) /\
  (forall (polygamma : nat -> R -> R) (u : list ndarray),
     DirichletDistribution.compute_gradient polygamma [] u [vector [1; 1]]
     = Raise IndexError).
Proof.
  split.
  - intros polygamma u.
    destruct (grad_outcomes polygamma u) as (_ & _ & H).
    specialize (H (vector [1; 1; 1]) [] (vector [1; 1]) []).
    change (broadcast_shapes (shape (vector [1; 1; 1])) (shape (vector [1; 1])))
      with (@None (list nat)) in H.
    split; [exact H|].
    destruct H as [msg Hm]. intros [v Hv]. congruence.
  - intros polygamma u. reflexivity.
Qed.

(** C7, amended. [compute_gradient(g, u, phi)] multiplies [g[0]], with
    NumPy's broadcasting, by the array
    [D[b, k] = trigamma(phi[0][b, k]) - trigamma(sum_j phi[0][b, j])],
    which has the shape of [phi[0]]. When the shape of [g[0]] can be
    broadcast against the shape of [phi[0]] it returns [[d0]], [d0] of
    the broadcast shape with every entry the product of the entries of
    [g[0]] and [D] that are broadcast to it; in particular
    [d0[b, k] = g[0][b, k] * D[b, k]] when [g[0]] has the shape of
    [phi[0]], and [d0[b, k] = c * D[b, k]] when [g[0]] is the
    0-dimensional [c]. When the shapes cannot be broadcast it raises
    [ValueError], and when [g] or [phi] is empty, [IndexError]. For K = 2
    and [phi[0] = [1, 1]] the factor is [trigamma(1) - trigamma(2)],
    which is 1 by the recurrence of the trigamma function, so that the
    result is then the input gradient. *)
Theorem compute_gradient_formula :
  forall (polygamma : nat -> R -> R) (g0 : ndarray) (gs u : list ndarray)
         (phi0 : ndarray) (phis : list ndarray),
    wf phi0 ->
    (exists D,
       shape D = shape phi0 /\ wf D /\
       (forall b k, (b < nrows phi0)%nat -> (k < row_len phi0)%nat ->
          entry D b k
          = polygamma 1%nat (entry phi0 b k)
            - polygamma 1%nat (trailing_sum phi0 b)) /\
       DirichletDistribution.compute_gradient polygamma
         (g0 :: gs) u (phi0 :: phis)
       = (d0 <- binop Rmult g0 D ;; Ok [d0]) /\
       (forall s,
          broadcast_shapes (shape g0) (shape phi0) = Some s ->
          exists d0,
            DirichletDistribution.compute_gradient polygamma
              (g0 :: gs) u (phi0 :: phis) = Ok [d0] /\
            shape d0 = s /\ wf d0 /\
            forall i, (i < size_of s)%nat ->
              get d0 i = broadcast_get g0 s i * broadcast_get D s i)) /\
    (broadcast_shapes (shape g0) (shape phi0) = None ->
     invalid_argument
       (DirichletDistribution.compute_gradient polygamma
          (g0 :: gs) u (phi0 :: phis))) /\
    (shape g0 = shape phi0 ->
     exists d0,
       DirichletDistribution.compute_gradient polygamma
         (g0 :: gs) u (phi0 :: phis) = Ok [d0] /\
       shape d0 = shape phi0 /\ wf d0 /\
       forall b k, (b < nrows phi0)%nat -> (k < row_len phi0)%nat ->
         entry d0 b k =
         entry g0 b k
         * (polygamma 1%nat (entry phi0 b k)
            - polygamma 1%nat (trailing_sum phi0 b))) /\
    (forall c,
     exists d0,
       DirichletDistribution.compute_gradient polygamma
         (scalar c :: gs) u (phi0 :: phis) = Ok [d0] /\
       shape d0 = shape phi0 /\ wf d0 /\
       forall b k, (b < nrows phi0)%nat -> (k < row_len phi0)%nat ->
         entry d0 b k =
         c * (polygamma 1%nat (entry phi0 b k)
              - polygamma 1%nat (trailing_sum phi0 b))) /\
    (forall g,
       DirichletDistribution.compute_gradient polygamma g u []
       = Raise IndexError) /\
    DirichletDistribution.compute_gradient polygamma [] u (phi0 :: phis)
    = Raise IndexError /\
    (forall g1 g2,
       DirichletDistribution.compute_gradient polygamma
         [vector [g1; g2]] u [vector [1; 1]]
       = Ok [vector [g1 * (polygamma 1%nat 1 - polygamma 1%nat 2);
                     g2 * (polygamma 1%nat 1 - polygamma 1%nat 2)]]) /\
    (forall c rest,
       DirichletDistribution.compute_gradient polygamma
         (scalar c :: rest) u [vector [1; 1]]
       = Ok [vector [c * (polygamma 1%nat 1 - polygamma 1%nat 2);
                     c * (polygamma 1%nat 1 - polygamma 1%nat 2)]]) /\
    (polygamma 1%nat 2 = polygamma 1%nat 1 - 1 ->
     forall g1 g2,
       DirichletDistribution.compute_gradient polygamma
         [vector [g1; g2]] u [vector [1; 1]]
       = Ok [vector [g1; g2]]).
Proof.
  intros polygamma g0 gs u phi0 phis Hwf.
  assert (Hrun : forall g,
    exists D,
      shape D = shape phi0 /\ wf D /\
      (forall b k, (b < nrows phi0)%nat -> (k < row_len phi0)%nat ->
         entry D b k
         = polygamma 1%nat (entry phi0 b k)
           - polygamma 1%nat (trailing_sum phi0 b)) /\
      DirichletDistribution.compute_gradient polygamma
        (g :: gs) u (phi0 :: phis)
      = (d0 <- binop Rmult g D ;; Ok [d0])).
  { intros g. destruct (grad_factor polygamma phi0) as (D & Hd & Hsd & Hrest).
    destruct (Hrest Hwf) as [Hwd He].
    exists D. repeat split; auto.
    unfold DirichletDistribution.compute_gradient.
    cbn [item nth_error bind]. rewrite Hd. reflexivity. }
  split; [|split; [|split; [|split; [|split; [|split; [|split; [|split]]]]]]].
  - destruct (Hrun g0) as (D & Hsd & Hwd & He & Hg).
    exists D. repeat split; auto.
    intros s Hs. rewrite Hg. unfold binop. rewrite Hsd, Hs. cbn [bind].
    eexists. split; [reflexivity|]. cbn [shape]. split; [reflexivity|].
    split.
    + unfold wf. cbn. now rewrite length_map, length_seq.
    + intros i Hi. unfold get at 1. cbn [data].
      now rewrite nth_map_seq.
  - intros Hnone. destruct (Hrun g0) as (D & Hsd & _ & _ & Hg).
    rewrite Hg. unfold binop. rewrite Hsd, Hnone. eexists. reflexivity.
  - intros Hsh. now apply grad_formula.
  - intros c. now apply grad_scalar.
  - reflexivity.
  - reflexivity.
  - intros g1 g2. apply grad_ones.
  - intros c rest.
    assert (Hw1 : wf (vector [1; 1])) by reflexivity.
    destruct (grad_scalar polygamma c rest u (vector [1; 1]) [] Hw1)
      as (d0 & Hr & Hsh & Hwd & He).
    rewrite Hr. do 2 f_equal.
    assert (Hs : trailing_sum (vector [1; 1]) 0 = 2).
    { cbv [trailing_sum entry get row_len vector shape data last List.length
           seq map nth Rsum fold_right Nat.mul Nat.add]. lra. }
    apply vector2_eq; auto.
    + rewrite He by (cbv; lia). rewrite Hs. reflexivity.
    + rewrite He by (cbv; lia). rewrite Hs. reflexivity.
  - intros Hrec g1 g2. rewrite grad_ones, Hrec.
    do 3 f_equal. f_equal; [lra | f_equal; lra].
Qed.

Lemma compute_gradient_formula_witness :
  wf (vector [1; 1]) /\
  broadcast_shapes (shape (vector [5; 7])) (shape (vector [1; 1]))
  = Some [2%nat] /\
  returns (DirichletDistribution.compute_gradient (fun _ x => / (x * x))
             [vector [5; 7]] [] [vector [1; 1]]).
Proof.
  assert (Hwf : wf (vector [1; 1])) by reflexivity.
  split; [exact Hwf|]. split; [reflexivity|].
  destruct (compute_gradient_formula (fun _ x => / (x * x))
              (vector [5; 7]) [] [] (vector [1; 1]) [] Hwf)
    as [(D & _ & _ & _ & _ & Hsome) _].
  destruct (Hsome [2%nat] eq_refl) as (d0 & Hr & _).
  exists [d0]. exact Hr.
Defined.
